(** * festival-pipe.py: the process stream supervisor

    The script spawns one child through the shell, its standard output
    captured in a pipe, and then loops for ever: await one line of the
    child's output, print it.

    - [Script] is the script: [run], an interaction tree over the three
      calls it makes on its environment ([create_subprocess_shell],
      [readline], [print]), and [main].
    - [Streams] and [Runtime] are that environment: the part of
      [asyncio.StreamReader] that [readline] runs through (buffer,
      end-of-file flag, stored exception, line limit), the host's shell and
      what it takes for a command line, the supervisor's own standard
      output, which may refuse a write, and a fuelled executor that drives a
      coroutine on a world.
    - [Observe] and [Hosts] name what is looked at in an execution, and a
      few hosts to execute on; [Console] is what a reader of the output
      counts; [Endings] has hosts whose output, or whose reader, ends badly.
    - The facts follow, then the claims about the supervisor, and last what
      holds beyond them: how the child's output can end, what the output
      tells its reader, which exceptions a run can meet.

    The pipe's transport feeds the reader from the event loop, which runs
    only while the coroutine waits.  The child's activity is taken as the
    list of the transport's calls ([feed_data], [feed_eof], [set_exception]),
    each made when [readline] has to wait: a waiting reader is woken by a
    call and runs before the next one, since nothing else is scheduled on
    the loop.  A child quick enough to write before the first [readline] is
    taken as writing at that call.  Pausing and resuming the transport (flow
    control past twice the limit) changes nothing the reader can see and is
    left out.

    A [print] is taken whole or refused whole: what [sys.stdout] holds is
    what the prints that returned have written, whether the interpreter
    has passed it on to the descriptor yet or keeps it in its buffer. *)

From Stdlib Require Import String Ascii List Bool Arith NArith Lia.
From Stdlib Require Import Strings.Byte.
From ITree Require Import ITree.
Import ListNotations.

(** ** Bytes *)

(** A Python [bytes] object. *)
Definition bytes := list byte.

(** [b'\n'], the separator [readline] passes to [readuntil]. *)
Definition sep : byte := x0a.

(** Python exceptions the script can meet.  None is caught by [run]. *)
Inductive Exception : Type :=
| FileNotFoundError           (* the program to execute does not exist *)
| PermissionError             (* the program may not be executed *)
| ValueError                  (* readline: a line is longer than the limit *)
| BrokenPipeError             (* the pipe failed under the reader *)
| ConnectionResetError
| AttributeError              (* proc.stdout is None *)
| OSError (errno : nat).

Module Streams.

(** *** The reader's state

    [asyncio.StreamReader]: [_buffer] is the bytearray of received and not
    yet returned data, [_eof] is set by [feed_eof], [_exception] by
    [set_exception], [_limit] is the line limit given at creation. *)
Record StreamReader : Type := mkStreamReader {
  _buffer : bytes;
  _eof : bool;
  _exception : option Exception;
  _limit : N
}.

(** [streams._DEFAULT_LIMIT], 64 KiB: the limit [create_subprocess_shell]
    passes on when the caller gives none. *)
Definition _DEFAULT_LIMIT : N := 2 ^ 16.

(** The reader a fresh subprocess pipe gets. *)
Definition new_reader (limit : N) : StreamReader :=
  mkStreamReader [] false None limit.

(** What the pipe's transport does to the reader, one call each:
    [feed_data(data)], [feed_eof()] when the child closed its end cleanly,
    [set_exception(exc)] when reading the pipe failed. *)
Inductive Feed : Type :=
| FeedData (data : bytes)
| FeedEof
| SetException (exc : Exception).

Definition set_buffer (r : StreamReader) (b : bytes) : StreamReader :=
  mkStreamReader b (_eof r) (_exception r) (_limit r).

(** One transport call applied to the reader; [Some exc] when the call wakes
    the waiting reader with an exception. *)
Definition feed (f : Feed) (r : StreamReader) : StreamReader * option Exception :=
  match f with
  | FeedData data => (set_buffer r (_buffer r ++ data), None)
  | FeedEof => (mkStreamReader (_buffer r) true (_exception r) (_limit r), None)
  | SetException exc =>
      (mkStreamReader (_buffer r) (_eof r) (Some exc) (_limit r), Some exc)
  end.

(** [bytearray.find(sep, offset)] for a one-byte separator: the index of the
    first [sep] at or after [offset], [None] for Python's -1. *)
Fixpoint find_from (b : bytes) (offset : nat) (idx : nat) : option nat :=
  match b with
  | [] => None
  | c :: b' =>
      if (offset <=? idx) && Byte.eqb c sep then Some idx
      else find_from b' offset (S idx)
  end.

Definition find (b : bytes) (offset : nat) : option nat := find_from b offset 0.

(** How a call of [readuntil] ends. *)
Inductive Until : Type :=
| Chunk (chunk : bytes)                  (* return bytes(chunk) *)
| IncompleteReadError (partial : bytes)
| LimitOverrunError (consumed : nat)
| Raise (exc : Exception)                (* the stored or delivered exception *)
| Waiting.                               (* parked in _wait_for_data for good *)

(** The first half of the loop body of [readuntil], with [seplen = 1]:
<<
    buflen = len(self._buffer)
    if buflen - offset >= seplen:
        isep = self._buffer.find(separator, offset)
        if isep != -1: break
        offset = buflen + 1 - seplen
        if offset > self._limit: raise LimitOverrunError(..., offset)
>> *)
Inductive Scan : Type :=
| Found (isep : nat)
| Overrun (offset : nat)
| NotYet (offset : nat).

Definition scan (r : StreamReader) (offset : nat) : Scan :=
  let buflen := length (_buffer r) in
  if 1 <=? buflen - offset then
    match find (_buffer r) offset with
    | Some isep => Found isep
    | None =>
        let offset' := buflen + 1 - 1 in
        if (_limit r <? N.of_nat offset')%N then Overrun offset' else NotYet offset'
    end
  else NotYet offset.

(** After the loop of [readuntil]:
<<
    if isep > self._limit: raise LimitOverrunError(..., isep)
    chunk = self._buffer[:isep + seplen]
    del self._buffer[:isep + seplen]
    return bytes(chunk)
>> *)
Definition take_chunk (r : StreamReader) (isep : nat) : Until * StreamReader :=
  if (_limit r <? N.of_nat isep)%N then (LimitOverrunError isep, r)
  else (Chunk (firstn (isep + 1) (_buffer r)),
        set_buffer r (skipn (isep + 1) (_buffer r))).

(** The loop of [readuntil].  [pipe] is what the transport will still feed,
    in order; the reader takes the next call each time it has to wait in
    [_wait_for_data], and waits for good when the child neither writes nor
    closes any more ([pipe] is empty).
<<
    while True:
        ... scan ...
        if self._eof:
            chunk = bytes(self._buffer); self._buffer.clear()
            raise IncompleteReadError(chunk, None)
        await self._wait_for_data('readuntil')
>> *)
Fixpoint readuntil_loop (pipe : list Feed) (r : StreamReader) (offset : nat)
  : Until * StreamReader * list Feed :=
  match scan r offset with
  | Found isep => (take_chunk r isep, pipe)
  | Overrun consumed => (LimitOverrunError consumed, r, pipe)
  | NotYet offset' =>
      if _eof r then (IncompleteReadError (_buffer r), set_buffer r [], pipe)
      else
        match pipe with
        | [] => (Waiting, r, pipe)
        | f :: pipe' =>
            match feed f r with
            | (r', Some exc) => (Raise exc, r', pipe')
            | (r', None) => readuntil_loop pipe' r' offset'
            end
        end
  end.

(** [readuntil(b'\n')]: a stored exception is raised first, then the loop
    runs from offset 0. *)
Definition readuntil (pipe : list Feed) (r : StreamReader)
  : Until * StreamReader * list Feed :=
  match _exception r with
  | Some exc => (Raise exc, r, pipe)
  | None => readuntil_loop pipe r 0
  end.

(** [bytearray.startswith(sep, start)] for the one-byte separator. *)
Definition startswith_sep (b : bytes) (start : nat) : bool :=
  match nth_error b start with
  | Some c => Byte.eqb c sep
  | None => false
  end.

(** How a call of [readline] ends. *)
Inductive Reading : Type :=
| Returns (line : bytes)
| Raises (exc : Exception)
| Suspends.

(** [StreamReader.readline]:
<<
    try:
        line = await self.readuntil(sep)
    except IncompleteReadError as e:
        return e.partial
    except LimitOverrunError as e:
        if self._buffer.startswith(sep, e.consumed):
            del self._buffer[:e.consumed + seplen]
        else:
            self._buffer.clear()
        raise ValueError(e.args[0])
    return line
>> *)
Definition readline (pipe : list Feed) (r : StreamReader)
  : Reading * StreamReader * list Feed :=
  match readuntil pipe r with
  | (Chunk line, r', pipe') => (Returns line, r', pipe')
  | (IncompleteReadError partial, r', pipe') => (Returns partial, r', pipe')
  | (LimitOverrunError consumed, r', pipe') =>
      (Raises ValueError,
       if startswith_sep (_buffer r') consumed
       then set_buffer r' (skipn (consumed + 1) (_buffer r'))
       else set_buffer r' [],
       pipe')
  | (Raise exc, r', pipe') => (Raises exc, r', pipe')
  | (Waiting, r', pipe') => (Suspends, r', pipe')
  end.

(** The state a reader is in between two calls of the script's loop: no
    stored exception, and nothing buffered once the stream is closed. *)
Definition settled (r : StreamReader) : Prop :=
  _exception r = None /\ (_eof r = true -> _buffer r = []).

(** The bytes still to come to the caller: buffered, or in chunks the pipe
    has not fed yet. *)
Definition to_come (r : StreamReader) (chunks : list bytes) : nat :=
  length (_buffer r) + length (concat chunks).

End Streams.

(** ** The script *)

Module Script.

(** [asyncio.subprocess.PIPE] and the default (the child inherits the
    supervisor's descriptor). *)
Variant Stdio : Type := PIPE | INHERIT.

(** The handle [create_subprocess_shell] returns.  The script owns one child,
    so the handle carries no identity. *)
Variant Process : Type := Proc.

(** The calls [run] makes on its environment.  [Readline proc] is
    [proc.stdout.readline()]. *)
Variant pipeE : Type -> Type :=
| Create_subprocess_shell (cmd : string) (stdout : Stdio) : pipeE Process
| Readline (proc : Process) : pipeE bytes
| Print (output_str : bytes) : pipeE unit.

(** The command line the script spawns. *)
Definition command : string :=
  "python nerd-dictation begin --continuous --numbers-as-digits".

(** The body of [while True]: one await, one print. *)
Definition body (proc : Process) : itree pipeE unit :=
  ITree.bind (ITree.trigger (Readline proc))
             (fun output_str => ITree.trigger (Print output_str)).

(** [async def run()]:
<<
    proc = await asyncio.create_subprocess_shell(
        'python nerd-dictation begin --continuous --numbers-as-digits',
        stdout=asyncio.subprocess.PIPE)
    while True:
        output_str = await proc.stdout.readline()
        print(output_str)
>> *)
Definition run : itree pipeE unit :=
  ITree.bind (ITree.trigger (Create_subprocess_shell command PIPE))
             (fun proc => ITree.forever (body proc)).

(** [def main()]: [asyncio.run(run())] drives the coroutine to its end and
    lets what it raises through. *)
Definition main : itree pipeE unit := run.

End Script.

(** ** The environment *)

Module Runtime.
Import Streams Script.

(** What the supervisor's host offers.  [sh] is the error that executing
    [/bin/sh] meets, if any ([FileNotFoundError] when it is missing,
    [PermissionError] when it may not be executed); [lookup] is what the shell
    finds for a command line (text as the operating system takes it, free of
    NUL): the activity on standard output of the program the line names, or
    [None] when no such executable exists.  [stdout_error] is what the
    supervisor's own standard output answers to a write, by the number of
    writes it has taken before: [None] when it takes the write, the error
    otherwise ([OSError] 28 when the device is full, [BrokenPipeError] when
    the reader of a pipe is gone). *)
Record OS : Type := mkOS {
  sh : option Exception;
  lookup : string -> option (list Feed);
  stdout_error : nat -> option Exception
}.

(** The spawned child: what its end of the pipe will still deliver, and the
    reader behind [proc.stdout] ([None] when stdout was not piped). *)
Record Child : Type := mkChild {
  pipe : list Feed;
  stdout : option StreamReader
}.

(** The calls that completed, as an observer of the supervisor sees them. *)
Inductive Call : Type :=
| Spawned (cmd : string)
| Read (line : bytes)
| Printed (output_str : bytes).

Record World : Type := mkWorld {
  os : OS;
  child : option Child;
  sys_stdout : string;
  trace : list Call
}.

(** The interpreter before [run] starts. *)
Definition boot (o : OS) : World := mkWorld o None EmptyString [].

(** *** [print] of a bytes object *)

Definition hexdigit (n : nat) : ascii :=
  nth n (list_ascii_of_string "0123456789abcdef") "0"%char.

Definition squote : byte := x27.
Definition dquote : byte := x22.
Definition backslash : byte := x5c.

(** One byte in [PyBytes_Repr]:
<<
    if (c == quote || c == '\\') *p++ = '\\', *p++ = c;
    else if (c == '\t') ... "\\t"; '\n': "\\n"; '\r': "\\r"
    else if (c < ' ' || c >= 0x7f) "\\x", hex[(c & 0xf0) >> 4], hex[c & 0xf]
    else *p++ = c;
>> *)
Definition repr_byte (quote c : byte) : list ascii :=
  let n := Byte.to_nat c in
  if Byte.eqb c quote || Byte.eqb c backslash then [ascii_of_byte backslash; ascii_of_byte c]
  else if Byte.eqb c x09 then ["\"; "t"]%char
  else if Byte.eqb c x0a then ["\"; "n"]%char
  else if Byte.eqb c x0d then ["\"; "r"]%char
  else if (n <? 32) || (127 <=? n) then
    ["\"; "x"; hexdigit (n / 16); hexdigit (n mod 16)]%char
  else [ascii_of_byte c].

Definition contains (c : byte) (b : bytes) : bool := existsb (Byte.eqb c) b.

(** [repr(b)] (and [str(b)]): [b'...'], with double quotes when the value
    holds a single quote and no double quote. *)
Definition bytes_repr (b : bytes) : string :=
  let quote := if contains squote b && negb (contains dquote b) then dquote else squote in
  string_of_list_ascii
    ("b"%char :: ascii_of_byte quote :: flat_map (repr_byte quote) b ++ [ascii_of_byte quote]).

(** What [print(output_str)] writes: [str(output_str)] and a newline. *)
Definition print_text (output_str : bytes) : string :=
  bytes_repr output_str ++ String "010" EmptyString.

(** The world a [print(output_str)] that went through leaves: the text is
    on [sys.stdout]. *)
Definition print (output_str : bytes) (w : World) : World :=
  mkWorld (os w) (child w)
          (sys_stdout w ++ print_text output_str)
          (trace w ++ [Printed output_str]).

(** The writes [sys.stdout] has taken: one for each print that went
    through. *)
Fixpoint writes (tr : list Call) : nat :=
  match tr with
  | [] => 0
  | Printed _ :: tr' => S (writes tr')
  | _ :: tr' => writes tr'
  end.

(** *** The calls on a world *)

(** How a call ends: it returns, raises, or never resumes. *)
Variant Reply (T : Type) : Type :=
| Done (v : T) (w : World)
| Throw (exc : Exception) (w : World)
| Park (w : World).
Arguments Done {T}.
Arguments Throw {T}.
Arguments Park {T}.

(** A NUL in the command line: no argument of [execve] can hold one. *)
Definition has_nul (cmd : string) : bool :=
  existsb (Ascii.eqb "000") (list_ascii_of_string cmd).

(** The longest argument [execve] takes on Linux, its closing NUL counted:
    32 pages of 4 KiB.  [E2BIG] is the error for a longer one. *)
Definition MAX_ARG_STRLEN : N := 131072.
Definition E2BIG : nat := 7.

(** [asyncio.create_subprocess_shell(cmd, stdout=...)] runs [/bin/sh -c cmd].
    A command line with a NUL in it is refused with [ValueError] before any
    process is made.  Then the shell has to start: an error starting it is
    raised to the caller, and so is [OSError] [E2BIG] when the command line
    is too long an argument for the kernel.  Nothing else has to hold for
    the call to return: a command the shell cannot find makes the shell
    complain on its standard error, which is not captured, and exit; its
    standard output closes with nothing written. *)
Definition create_subprocess_shell (cmd : string) (out : Stdio) (w : World)
  : Reply Process :=
  if has_nul cmd then Throw ValueError w
  else
    match sh (os w) with
    | Some exc => Throw exc w
    | None =>
        if (MAX_ARG_STRLEN <? N.of_nat (String.length cmd) + 1)%N
        then Throw (OSError E2BIG) w
        else
          let activity :=
            match lookup (os w) cmd with
            | Some feeds => feeds
            | None => [FeedEof]
            end in
          let reader :=
            match out with
            | PIPE => Some (new_reader _DEFAULT_LIMIT)
            | INHERIT => None
            end in
          Done Proc (mkWorld (os w) (Some (mkChild activity reader)) (sys_stdout w)
                             (trace w ++ [Spawned cmd]))
    end.

Definition set_child (w : World) (c : Child) : World :=
  mkWorld (os w) (Some c) (sys_stdout w) (trace w).

Definition log (w : World) (c : Call) : World :=
  mkWorld (os w) (child w) (sys_stdout w) (trace w ++ [c]).

(** [await proc.stdout.readline()]. *)
Definition await_readline (w : World) : Reply bytes :=
  match child w with
  | Some (mkChild feeds (Some r)) =>
      match readline feeds r with
      | (Returns line, r', feeds') =>
          Done line (log (set_child w (mkChild feeds' (Some r'))) (Read line))
      | (Raises exc, r', feeds') =>
          Throw exc (set_child w (mkChild feeds' (Some r')))
      | (Suspends, r', feeds') =>
          Park (set_child w (mkChild feeds' (Some r')))
      end
  | _ => Throw AttributeError w
  end.

(** [print(output_str)], the call: it returns when [sys.stdout] takes the
    write, and raises what the write met otherwise, nothing written. *)
Definition call_print (output_str : bytes) (w : World) : Reply unit :=
  match stdout_error (os w) (writes (trace w)) with
  | Some exc => Throw exc w
  | None => Done tt (print output_str w)
  end.

Definition handle {T : Type} (e : pipeE T) (w : World) : Reply T :=
  match e in pipeE T return Reply T with
  | Create_subprocess_shell cmd out => create_subprocess_shell cmd out w
  | Readline _ => await_readline w
  | Print output_str => call_print output_str w
  end.

(** *** Driving a coroutine *)

(** Where an execution stands: the coroutine returned, an exception left it
    uncaught, it is parked in an await that nothing will resume, or it is
    still going (the fuel ran out first). *)
Inductive Outcome : Type :=
| Return (w : World)
| Uncaught (exc : Exception) (w : World)
| Parked (w : World)
| Busy (w : World).

(** [fuel] steps of [t] on [w]; a step is one call, or the jump back to the
    head of a loop. *)
Fixpoint exec (fuel : nat) (t : itree pipeE unit) (w : World) : Outcome :=
  match fuel with
  | 0 => Busy w
  | S fuel' =>
      match observe t with
      | RetF _ => Return w
      | TauF t' => exec fuel' t' w
      | VisF e k =>
          match handle e w with
          | Done v w' => exec fuel' (k v) w'
          | Throw exc w' => Uncaught exc w'
          | Park w' => Parked w'
          end
      end
  end.

Definition world_of (o : Outcome) : World :=
  match o with
  | Return w | Uncaught _ w | Parked w | Busy w => w
  end.

End Runtime.

(** ** What is observed of an execution *)

Module Observe.
Import Streams Script Runtime.

(** The loop of [run], on the handle the spawn returned. *)
Definition loop : itree pipeE unit := ITree.forever (body Proc).

(** The values handed to the consumer, oldest first. *)
Fixpoint deliveries (tr : list Call) : list bytes :=
  match tr with
  | [] => []
  | Printed b :: tr' => b :: deliveries tr'
  | _ :: tr' => deliveries tr'
  end.

(** The values [readline] returned, oldest first. *)
Fixpoint reads (tr : list Call) : list bytes :=
  match tr with
  | [] => []
  | Read b :: tr' => b :: reads tr'
  | _ :: tr' => reads tr'
  end.

(** The reader behind [proc.stdout]. *)
Definition reader (w : World) : option StreamReader :=
  match child w with
  | Some c => stdout c
  | None => None
  end.

(** Turns of the loop as a trace shows them: a value is read, then that very
    value is printed, and only then the next is read.  The last turn may
    stand between its read and its print. *)
Inductive Turns : list Call -> Prop :=
| turns_nil : Turns []
| turns_read (line : bytes) : Turns [Read line]
| turns_cons (line : bytes) (tr : list Call) :
    Turns tr -> Turns (Read line :: Printed line :: tr).

(** The text [sys.stdout] has received when the consumer got [values]. *)
Fixpoint text_of (values : list bytes) : string :=
  match values with
  | [] => EmptyString
  | b :: values' => print_text b ++ text_of values'
  end.

(** The coroutine is still going. *)
Definition busy (o : Outcome) : bool :=
  match o with
  | Busy _ => true
  | _ => false
  end.

(** The coroutine returned. *)
Definition returned (o : Outcome) : bool :=
  match o with
  | Return _ => true
  | _ => false
  end.

(** The world right after a successful spawn of [command]. *)
Definition spawned (o : OS) : World :=
  mkWorld o
    (Some (mkChild match lookup o command with
                   | Some feeds => feeds
                   | None => [FeedEof]
                   end
                   (Some (new_reader _DEFAULT_LIMIT))))
    EmptyString [Spawned command].

(** The child's end of the pipe is still open, as far as the reader knows. *)
Definition stream_open (w : World) : Prop :=
  exists r, reader w = Some r /\ _eof r = false.

(** The reader has seen the end of the stream. *)
Definition stream_closed (w : World) : Prop :=
  exists r, reader w = Some r /\ _eof r = true.

(** Closed, and everything received has been returned. *)
Definition stream_exhausted (w : World) : Prop :=
  exists r, reader w = Some r /\ _eof r = true /\ _buffer r = [].

Definition newline_terminated (line : bytes) : Prop :=
  exists body, line = body ++ [sep].

(** A line as the child writes it: a body free of newlines, then the
    newline; and short enough for a reader of the given limit. *)
Definition line_within (limit : N) (line : bytes) : Prop :=
  exists body,
    line = body ++ [sep] /\ ~ In sep body /\ (N.of_nat (length body) <= limit)%N.

(** The reader of the world, when there is one, is between two calls as the
    script's loop leaves it. *)
Definition world_settled (w : World) : Prop :=
  forall r, reader w = Some r -> settled r.

(** One whole turn of the loop in the trace. *)
Definition turn_of (line : bytes) : list Call := [Read line; Printed line].

(** The world a call leaves behind, however it ends. *)
Definition after {T : Type} (rp : Reply T) : World :=
  match rp with
  | Done _ w | Throw _ w | Park w => w
  end.

(** As long as the stream is open, every value read so far ends with the
    newline. *)
Definition reads_terminated (w : World) : Prop :=
  stream_open w -> Forall newline_terminated (reads (trace w)).

(** What is claimed of a child that writes [lines] and exits: the consumer
    got exactly these, and [run] is over. *)
Definition delivers_then_exits (o : OS) (lines : list bytes) : Prop :=
  exists fuel w, exec fuel run (boot o) = Return w /\ deliveries (trace w) = lines.

(** [sys.stdout] takes its first [n] writes. *)
Definition accepts (o : OS) (n : nat) : Prop :=
  forall i, i < n -> stdout_error o i = None.

(** [sys.stdout] takes every write. *)
Definition writable (o : OS) : Prop :=
  forall i, stdout_error o i = None.

(** From where the world stands, [sys.stdout] takes the next [n] writes. *)
Definition accepting (w : World) (n : nat) : Prop :=
  forall j, j < n -> stdout_error (os w) (writes (trace w) + j) = None.

(** The supervisor's states as its specification names them.  The script
    keeps no state variable; the state is read off where the coroutine
    stands: [Exited] when [run] returned, [Failed] when an exception left it,
    [Running] while it goes or waits with a child, [NotStarted] before the
    spawn.  [Stopped] is reached by cancellation from outside, which is not
    among the moves of this environment. *)
Inductive State : Type := NotStarted | Running | Stopped | Exited | Failed.

Definition state_of (o : Outcome) : State :=
  match o with
  | Return _ => Exited
  | Uncaught _ _ => Failed
  | Parked w | Busy w =>
      match child w with
      | Some _ => Running
      | None => NotStarted
      end
  end.

End Observe.

(** ** Hosts to run the script on *)

Module Hosts.
Import Streams Script Runtime Observe.

Definition LF : string := String "010" EmptyString.

(** A standard output that takes every write: a terminal, a file on a disk
    with room. *)
Definition tty : nat -> option Exception := fun _ => None.

(** [s.encode()] for ASCII text. *)
Definition B (s : string) : bytes := list_byte_of_string s.

(** The engine says [hello], then [world 1 2 3], and closes its output. *)
Definition hello_lines : list bytes :=
  [B ("hello" ++ LF); B ("world 1 2 3" ++ LF)].

Definition hello_world : OS :=
  mkOS None (fun _ => Some [FeedData (B ("hello" ++ LF));
                            FeedData (B ("world 1 2 3" ++ LF)); FeedEof]) tty.

(** The same output, cut differently by the pipe. *)
Definition hello_world_chunked : OS :=
  mkOS None (fun _ => Some [FeedData (B "hel");
                            FeedData (B ("lo" ++ LF ++ "world 1"));
                            FeedData (B (" 2 3" ++ LF)); FeedEof]) tty.

(** One line of 65537 letters, one more than the limit allows before the
    newline; then the engine closes its output. *)
Definition long_line : bytes := repeat "a"%byte (N.to_nat 65537) ++ [sep].

Definition long_winded : OS :=
  mkOS None (fun _ => Some [FeedData long_line; FeedEof]) tty.

(** A host with a shell and no [python] on it, nor anything else. *)
Definition no_python : OS := mkOS None (fun _ => None) tty.

(** A host whose [/bin/sh] is missing. *)
Definition no_shell : OS := mkOS (Some FileNotFoundError) (fun _ => None) tty.

(** The engine closes its output at once. *)
Definition closing : OS := mkOS None (fun _ => Some [FeedEof]) tty.

(** The engine listens and hears nothing: no output, no exit. *)
Definition silent : OS := mkOS None (fun _ => Some []) tty.

(** The engine says [one], starts [tw], and the pipe breaks. *)
Definition breaking : OS :=
  mkOS None (fun _ => Some [FeedData (B ("one" ++ LF ++ "tw"));
                            SetException BrokenPipeError]) tty.

End Hosts.

(** ** What a reader of the supervisor's output sees *)

Module Console.
Import Streams Runtime.

(** The newline characters of a text: the lines a reader of [sys.stdout]
    counts. *)
Fixpoint newlines (s : string) : nat :=
  match s with
  | EmptyString => 0
  | String c s' => (if Ascii.eqb c "010" then 1 else 0) + newlines s'
  end.

(** A byte that [repr] shows as itself between single quotes: printable
    ASCII other than the single quote and the backslash. *)
Definition plain (c : byte) : bool :=
  let n := Byte.to_nat c in
  (32 <=? n) && (n <? 127) && negb (Byte.eqb c squote) && negb (Byte.eqb c backslash).

(** The quotes [repr] chooses from. *)
Definition is_quote (q : byte) : Prop := q = squote \/ q = dquote.

(** The value of a hexadecimal digit as [repr] writes it. *)
Definition unhex (a : ascii) : nat :=
  let fix index (l : list ascii) (i : nat) : nat :=
    match l with
    | [] => i
    | x :: l' => if Ascii.eqb x a then i else index l' (S i)
    end in
  index (list_ascii_of_string "0123456789abcdef") 0.

(** One byte read back off the head of a representation, as a parser of
    the bytes literal reads it: an escape after a backslash, the character
    itself otherwise. *)
Definition unrepr_byte (s : list ascii) : option (byte * list ascii) :=
  match s with
  | "\"%char :: "x"%char :: h :: l :: s' =>
      match Byte.of_nat (16 * unhex h + unhex l) with
      | Some c => Some (c, s')
      | None => None
      end
  | "\"%char :: "t"%char :: s' => Some (x09, s')
  | "\"%char :: "n"%char :: s' => Some (x0a, s')
  | "\"%char :: "r"%char :: s' => Some (x0d, s')
  | "\"%char :: c :: s' => Some (byte_of_ascii c, s')
  | c :: s' => Some (byte_of_ascii c, s')
  | [] => None
  end.

End Console.

(** ** More hosts: how the engine's output can end *)

Module Endings.
Import Streams Runtime Hosts.

(** The engine says [ok], then a line of 65537 letters, then [bye], and
    closes its output. *)
Definition rambling_chunks : list bytes :=
  [B ("ok" ++ LF); repeat "a"%byte (N.to_nat 65537) ++ sep :: B ("bye" ++ LF)].

Definition rambling : OS :=
  mkOS None (fun _ => Some (map FeedData rambling_chunks ++ [FeedEof])) tty.

(** The engine says [one], starts [tw], and falls silent, its output still
    open. *)
Definition stalling_chunks : list bytes := [B "on"; B ("e" ++ LF ++ "tw")].

Definition stalling : OS := mkOS None (fun _ => Some (map FeedData stalling_chunks)) tty.

(** [ENOSPC]: no space left on device. *)
Definition ENOSPC : nat := 28.

(** The engine closes its output at once, and the supervisor's own output
    goes to a full device, which takes no write at all. *)
Definition full_disk : OS :=
  mkOS None (fun _ => Some [FeedEof]) (fun _ => Some (OSError ENOSPC)).

(** The engine says its two lines and closes; the reader of the supervisor's
    output leaves after the first line it gets, as [head -1] does. *)
Definition headed : OS :=
  mkOS None (fun _ => Some [FeedData (B ("hello" ++ LF));
                            FeedData (B ("world 1 2 3" ++ LF)); FeedEof])
       (fun n => if n <? 1 then None else Some BrokenPipeError).

(** The engine closes its output at once; the reader of the supervisor's
    output takes two lines and leaves, as [head -2] does. *)
Definition closing_headed : OS :=
  mkOS None (fun _ => Some [FeedEof])
       (fun n => if n <? 2 then None else Some BrokenPipeError).

End Endings.

(** * The model at work *)

Module Checks.
Import Streams Script Runtime Observe Hosts Endings.

(** Two lines, two turns: what the supervisor has written after them. *)
Example hello_world_stdout :
  sys_stdout (world_of (exec 7 run (boot hello_world))) =
  ("b'hello\n'" ++ LF ++ "b'world 1 2 3\n'" ++ LF)%string.
Proof. reflexivity. Qed.

(** How the pipe cuts the writes does not show. *)
Example chunks_do_not_show :
  trace (world_of (exec 7 run (boot hello_world_chunked))) =
  trace (world_of (exec 7 run (boot hello_world))).
Proof. reflexivity. Qed.

(** A last line without its newline is returned as it is at end of file. *)
Example partial_last_line :
  reads (trace (world_of (exec 5 run
    (boot (mkOS None (fun _ => Some [FeedData (B "abc"); FeedEof]) tty))))) = [B "abc"; []].
Proof. reflexivity. Qed.

(** The pipe breaks in the middle of the second line: the first was
    delivered, the exception leaves [run]. *)
Example breaking_run :
  exists w,
    exec 5 run (boot breaking) = Uncaught BrokenPipeError w /\
    deliveries (trace w) = [B ("one" ++ LF)].
Proof. eexists. split; reflexivity. Qed.

(** Quotes and escapes of [repr]. *)
Example repr_double_quotes :
  bytes_repr (B "it's") = String "b" (String (ascii_of_byte dquote)
                                        ("it's" ++ String (ascii_of_byte dquote) "")).
Proof. reflexivity. Qed.

Example repr_escapes :
  bytes_repr [x00; xff; x5c; x27; x22; x09; x7e; x7f] =
  ("b'\x00\xff\\\'" ++ String (ascii_of_byte dquote) "\t~\x7f'")%string.
Proof. reflexivity. Qed.

(** The reader with a limit of 8, as [asyncio.StreamReader(limit=8)]
    behaves: a body of 8 bytes passes, one of 9 raises [ValueError] and is
    dropped up to its newline; data over the limit with no newline raises
    and is dropped whole. *)
Example readline_at_the_limit :
  readline [FeedData (B ("12345678" ++ LF ++ "abc"))] (new_reader 8) =
  (Returns (B ("12345678" ++ LF)), mkStreamReader (B "abc") false None 8, []).
Proof. reflexivity. Qed.

Example readline_over_the_limit :
  readline [FeedData (B ("defghi" ++ LF ++ "xy"))] (mkStreamReader (B "abc") false None 8) =
  (Raises ValueError, mkStreamReader (B "xy") false None 8, []).
Proof. reflexivity. Qed.

Example readline_no_newline_over_the_limit :
  readline [FeedData (B "123456789")] (new_reader 8) =
  (Raises ValueError, new_reader 8, []).
Proof. reflexivity. Qed.

(** A stored exception is raised before anything buffered is looked at. *)
Example readline_stored_exception :
  readline [] (mkStreamReader (B ("ab" ++ LF)) false (Some BrokenPipeError) 8) =
  (Raises BrokenPipeError, mkStreamReader (B ("ab" ++ LF)) false (Some BrokenPipeError) 8, []).
Proof. reflexivity. Qed.

(** The supervisor's output goes to a full device: the first print raises,
    and the exception leaves [run]. *)
Example full_disk_run :
  exists w,
    exec 3 run (boot full_disk) = Uncaught (OSError ENOSPC) w /\
    reads (trace w) = [[]] /\ deliveries (trace w) = [] /\ sys_stdout w = EmptyString.
Proof. eexists. repeat split. Qed.

(** The reader of the supervisor's output leaves after one line: the second
    line is read, and its print raises. *)
Example headed_run :
  exists w,
    exec 6 run (boot headed) = Uncaught BrokenPipeError w /\
    reads (trace w) = hello_lines /\ deliveries (trace w) = [B ("hello" ++ LF)].
Proof. eexists. repeat split. Qed.

(** A command line the spawn refuses, the shell untried; and the script's
    own, which it takes. *)
Example spawn_nul :
  create_subprocess_shell (String "a" (String "000" "b")) PIPE (boot no_shell) =
  Throw ValueError (boot no_shell).
Proof. reflexivity. Qed.

Example spawn_command :
  create_subprocess_shell command PIPE (boot no_python) = Done Proc (spawned no_python).
Proof. reflexivity. Qed.

End Checks.

(** * Facts about the reader *)

Module StreamFacts.
Import Streams.

Lemma eqb_sep_false (c : byte) : c <> sep -> Byte.eqb c sep = false.
Proof.
  intros Hc. destruct (Byte.eqb c sep) eqn:E; [|reflexivity].
  apply Byte.byte_dec_bl in E. contradiction.
Qed.

(** [find] stops at the first separator when the search starts no later. *)
Lemma find_from_hit (p rest : bytes) (offset idx : nat) :
  ~ In sep p -> offset <= idx + length p ->
  find_from (p ++ sep :: rest) offset idx = Some (idx + length p).
Proof.
  revert idx. induction p as [|c p IH]; intros idx Hp Hoff; simpl in *.
  - rewrite Nat.add_0_r in *. apply Nat.leb_le in Hoff. now rewrite Hoff.
  - rewrite (eqb_sep_false c) by (intros ->; apply Hp; now left).
    rewrite andb_false_r, IH; [f_equal; lia | tauto | lia].
Qed.

Lemma find_from_miss (b : bytes) (offset idx : nat) :
  ~ In sep b -> find_from b offset idx = None.
Proof.
  revert idx. induction b as [|c b IH]; intros idx Hb; simpl in *; [reflexivity|].
  rewrite (eqb_sep_false c) by (intros ->; apply Hb; now left).
  rewrite andb_false_r. apply IH. tauto.
Qed.

(** What [find] returns is the index of a separator of the buffer. *)
Lemma find_from_sound (b : bytes) (offset idx isep : nat) :
  find_from b offset idx = Some isep ->
  idx <= isep /\ nth_error b (isep - idx) = Some sep.
Proof.
  revert idx. induction b as [|c b IH]; intros idx H; simpl in *; [discriminate|].
  destruct ((offset <=? idx) && Byte.eqb c sep) eqn:E.
  - injection H as <-. apply andb_prop in E as [_ E].
    apply Byte.byte_dec_bl in E. subst c.
    rewrite Nat.sub_diag. split; [lia | reflexivity].
  - apply IH in H as [Hle Hnth]. split; [lia|].
    replace (isep - idx) with (S (isep - S idx)) by lia. exact Hnth.
Qed.

Lemma find_sound (b : bytes) (offset isep : nat) :
  find b offset = Some isep -> nth_error b isep = Some sep.
Proof.
  unfold find. intros H. apply find_from_sound in H as [_ H].
  now rewrite Nat.sub_0_r in H.
Qed.

Lemma find_hit (p rest : bytes) (offset : nat) :
  ~ In sep p -> offset <= length p ->
  find (p ++ sep :: rest) offset = Some (length p).
Proof. intros. unfold find. now rewrite find_from_hit. Qed.

Lemma find_miss (b : bytes) (offset : nat) : ~ In sep b -> find b offset = None.
Proof. intros. now apply find_from_miss. Qed.

(** The chunk cut at a separator ends with it. *)
Lemma firstn_through (b : bytes) (isep : nat) :
  nth_error b isep = Some sep ->
  firstn (isep + 1) b = firstn isep b ++ [sep] /\ isep < length b.
Proof.
  revert isep. induction b as [|c b IH]; intros [|isep] H; simpl in *; try discriminate.
  - injection H as ->. split; [reflexivity | lia].
  - apply IH in H as [-> ?]. split; [reflexivity | lia].
Qed.

Lemma cut_at_sep (body l : bytes) :
  firstn (length body + 1) (body ++ sep :: l) = body ++ [sep] /\
  skipn (length body + 1) (body ++ sep :: l) = l.
Proof.
  replace (body ++ sep :: l) with ((body ++ [sep]) ++ l)
    by (rewrite <- app_assoc; reflexivity).
  replace (length body + 1) with (length (body ++ [sep]))
    by (rewrite length_app; reflexivity).
  rewrite firstn_app, skipn_app, firstn_all, skipn_all, Nat.sub_diag.
  simpl. rewrite app_nil_r. split; reflexivity.
Qed.

(** *** The loop of [readuntil], one turn *)

Lemma readuntil_loop_eq (pipe : list Feed) (r : StreamReader) (offset : nat) :
  readuntil_loop pipe r offset =
  match scan r offset with
  | Found isep => (take_chunk r isep, pipe)
  | Overrun consumed => (LimitOverrunError consumed, r, pipe)
  | NotYet offset' =>
      if _eof r then (IncompleteReadError (_buffer r), set_buffer r [], pipe)
      else
        match pipe with
        | [] => (Waiting, r, pipe)
        | f :: pipe' =>
            match feed f r with
            | (r', Some exc) => (Raise exc, r', pipe')
            | (r', None) => readuntil_loop pipe' r' offset'
            end
        end
  end.
Proof. destruct pipe; reflexivity. Qed.

(** A whole line is in the buffer: the scan finds its separator. *)
Lemma scan_found (r : StreamReader) (offset : nat) (body l : bytes) :
  _buffer r = body ++ sep :: l -> ~ In sep body -> offset <= length body ->
  scan r offset = Found (length body).
Proof.
  intros Hb Hbody Hoff. unfold scan. rewrite Hb, find_hit by assumption.
  rewrite length_app. cbn [length].
  destruct (1 <=? length body + S (length l) - offset) eqn:E; [reflexivity|].
  apply Nat.leb_gt in E. lia.
Qed.

(** No separator yet, and the data is within [bound], itself within the
    limit: the scan asks for more, from an offset within [bound]. *)
Lemma scan_notyet (r : StreamReader) (offset bound : nat) :
  ~ In sep (_buffer r) -> length (_buffer r) <= bound -> offset <= bound ->
  (N.of_nat bound <= _limit r)%N ->
  exists offset', scan r offset = NotYet offset' /\ offset' <= bound.
Proof.
  intros Hb Hlen Hoff Hlim. unfold scan. rewrite find_miss by assumption.
  destruct (1 <=? length (_buffer r) - offset).
  - rewrite Nat.add_sub.
    destruct (_limit r <? N.of_nat (length (_buffer r)))%N eqn:E.
    + apply N.ltb_lt in E. lia.
    + eexists; split; [reflexivity | assumption].
  - eexists; split; [reflexivity | assumption].
Qed.

Lemma take_chunk_line (r : StreamReader) (body l : bytes) :
  _buffer r = body ++ sep :: l -> (N.of_nat (length body) <= _limit r)%N ->
  take_chunk r (length body) = (Chunk (body ++ [sep]), set_buffer r l).
Proof.
  intros Hb Hlim. unfold take_chunk.
  destruct (_limit r <? N.of_nat (length body))%N eqn:E.
  - apply N.ltb_lt in E. lia.
  - rewrite Hb. destruct (cut_at_sep body l) as [-> ->]. reflexivity.
Qed.

(** Where the next line stands against the buffer: either the buffer is a
    separator-free prefix of its body, or the buffer holds it whole. *)
Lemma next_line_cases (buf more body rest : bytes) :
  ~ In sep body -> buf ++ more = body ++ sep :: rest ->
  (~ In sep buf /\ length buf <= length body /\ more <> []) \/
  (exists l, buf = body ++ sep :: l /\ rest = l ++ more).
Proof.
  intros Hbody H. apply app_eq_app in H as [l [[H1 H2] | [H1 H2]]].
  - destruct l as [|c l].
    + left. rewrite app_nil_r in H1. subst buf. simpl in H2.
      repeat split; [assumption | lia | now rewrite <- H2].
    + injection H2 as <- ->. right. now exists l.
  - left. subst body. repeat split.
    + intros Hin. apply Hbody, in_or_app. now left.
    + rewrite length_app. lia.
    + intros ->. destruct l; discriminate.
Qed.

(** *** Line assembly

    The data still to come, buffered or in the pipe, starts with a line
    [body ++ [sep]] that fits the limit.  However the child's writes were
    cut into chunks, [readuntil] returns that line and leaves the rest. *)
Lemma readuntil_loop_line (chunks : list bytes) :
  forall (r : StreamReader) (offset : nat) (body rest : bytes) (tail : list Feed),
  _eof r = false -> ~ In sep body ->
  _buffer r ++ concat chunks = body ++ sep :: rest ->
  offset <= length body -> (N.of_nat (length body) <= _limit r)%N ->
  exists buf' chunks',
    readuntil_loop (map FeedData chunks ++ tail) r offset =
      (Chunk (body ++ [sep]), set_buffer r buf', map FeedData chunks' ++ tail) /\
    buf' ++ concat chunks' = rest.
Proof.
  induction chunks as [|c chunks IH]; intros r offset body rest tail Heof Hbody Hdata Hoff Hlim;
    rewrite readuntil_loop_eq;
    destruct (next_line_cases _ _ _ _ Hbody Hdata) as [(Hbuf & Hlen & Hmore) | (l & Hbuf & Hrest)].
  - now contradiction Hmore.
  - rewrite (scan_found _ _ _ _ Hbuf Hbody Hoff), (take_chunk_line _ _ _ Hbuf Hlim).
    exists l, []. split; [reflexivity | now rewrite Hrest].
  - destruct (scan_notyet r _ _ Hbuf Hlen Hoff Hlim) as (offset' & -> & Hoff').
    rewrite Heof. cbn [map app feed].
    destruct (IH (set_buffer r (_buffer r ++ c)) offset' body rest tail)
      as (buf' & chunks' & Hrun & Hleft); try assumption.
    + cbn [set_buffer _buffer concat] in *. now rewrite <- app_assoc.
    + exists buf', chunks'. split; [exact Hrun | exact Hleft].
  - rewrite (scan_found _ _ _ _ Hbuf Hbody Hoff), (take_chunk_line _ _ _ Hbuf Hlim).
    exists l, (c :: chunks). split; [reflexivity | now rewrite Hrest].
Qed.

Lemma readline_line (chunks : list bytes) (r : StreamReader)
      (body rest : bytes) (tail : list Feed) :
  _eof r = false -> _exception r = None -> ~ In sep body ->
  _buffer r ++ concat chunks = body ++ sep :: rest ->
  (N.of_nat (length body) <= _limit r)%N ->
  exists buf' chunks',
    readline (map FeedData chunks ++ tail) r =
      (Returns (body ++ [sep]), set_buffer r buf', map FeedData chunks' ++ tail) /\
    buf' ++ concat chunks' = rest.
Proof.
  intros Heof Hexc Hbody Hdata Hlim.
  destruct (readuntil_loop_line chunks r 0 body rest tail Heof Hbody Hdata (Nat.le_0_l _) Hlim)
    as (buf' & chunks' & Hrun & Hleft).
  exists buf', chunks'. split; [|exact Hleft].
  unfold readline, readuntil. now rewrite Hexc, Hrun.
Qed.

(** *** The stream at end of file *)

(** Closed and drained: [readline] returns [b''] at once and changes
    nothing, the pipe included. *)
Lemma readline_exhausted (pipe : list Feed) (r : StreamReader) :
  _eof r = true -> _buffer r = [] -> _exception r = None ->
  readline pipe r = (Returns [], r, pipe).
Proof.
  destruct r as [buf eof exc lim]. cbn [_eof _buffer _exception].
  intros -> -> ->. unfold readline, readuntil. cbn [_exception].
  rewrite readuntil_loop_eq. reflexivity.
Qed.

(** What the scan leaves to wait for starts past the buffer. *)
Lemma scan_notyet_past (r : StreamReader) (offset offset' : nat) :
  scan r offset = NotYet offset' -> length (_buffer r) <= offset'.
Proof.
  unfold scan. destruct (1 <=? length (_buffer r) - offset) eqn:E.
  - destruct (find (_buffer r) offset); [discriminate|].
    rewrite Nat.add_sub.
    destruct (_limit r <? N.of_nat (length (_buffer r)))%N; [discriminate|].
    intros [= <-]. lia.
  - intros [= <-]. apply Nat.leb_gt in E. lia.
Qed.

Lemma scan_found_sound (r : StreamReader) (offset isep : nat) :
  scan r offset = Found isep -> nth_error (_buffer r) isep = Some sep.
Proof.
  unfold scan. destruct (1 <=? length (_buffer r) - offset); [|discriminate].
  destruct (find (_buffer r) offset) eqn:E.
  - intros [= <-]. exact (find_sound _ _ _ E).
  - destruct (_limit r <? _)%N; discriminate.
Qed.

Lemma scan_found_room (r : StreamReader) (offset isep : nat) :
  scan r offset = Found isep -> offset < length (_buffer r).
Proof.
  unfold scan. destruct (1 <=? length (_buffer r) - offset) eqn:E; [|discriminate].
  intros _. apply Nat.leb_le in E. lia.
Qed.

Lemma readuntil_loop_settled (pipe : list Feed) :
  forall (r : StreamReader) (offset : nat),
  _exception r = None ->
  (_eof r = true -> length (_buffer r) <= offset) ->
  match readuntil_loop pipe r offset with
  | (Chunk _, r', _) | (IncompleteReadError _, r', _) => settled r'
  | _ => True
  end.
Proof.
  induction pipe as [|f pipe IH]; intros r offset Hexc Hclosed;
    rewrite readuntil_loop_eq; destruct (scan r offset) as [isep|n|offset'] eqn:Hscan;
    try exact I.
  1, 3: unfold take_chunk; destruct (_limit r <? N.of_nat isep)%N; [exact I|];
    split; [exact Hexc|]; cbn [set_buffer _eof _buffer]; intros Heof;
    specialize (Hclosed Heof); apply scan_found_room in Hscan; lia.
  - destruct (_eof r); [|exact I]. split; [exact Hexc | reflexivity].
  - destruct (_eof r) eqn:Heof; [split; [exact Hexc | reflexivity]|].
    destruct f as [data| |exc]; cbn [feed]; try exact I.
    + apply IH; cbn [set_buffer _exception _eof]; [exact Hexc | congruence].
    + apply IH; cbn [_exception _eof _buffer]; [exact Hexc|].
      intros _. exact (scan_notyet_past _ _ _ Hscan).
Qed.

Lemma readline_settled (pipe : list Feed) (r : StreamReader) :
  settled r ->
  match readline pipe r with
  | (Returns _, r', _) => settled r'
  | _ => True
  end.
Proof.
  intros [Hexc Hclosed]. unfold readline, readuntil. rewrite Hexc.
  pose proof (readuntil_loop_settled pipe r 0 Hexc) as H.
  destruct (readuntil_loop pipe r 0) as [[[line|partial|n|exc|] r'] pipe'];
    try exact I; apply H; intros Heof; rewrite (Hclosed Heof); apply Nat.le_refl.
Qed.

(** *** The unterminated tail

    What is still to come holds no separator and fits the limit, and then
    the child closes its end: [readline] returns all of it, and leaves the
    stream exhausted. *)
Lemma scan_nosep (r : StreamReader) (offset : nat) :
  ~ In sep (_buffer r) -> (N.of_nat (length (_buffer r)) <= _limit r)%N ->
  exists offset', scan r offset = NotYet offset'.
Proof.
  intros Hb Hlim. unfold scan. rewrite find_miss by assumption.
  destruct (1 <=? length (_buffer r) - offset); [|now eexists].
  rewrite Nat.add_sub.
  destruct (_limit r <? N.of_nat (length (_buffer r)))%N eqn:E; [|now eexists].
  apply N.ltb_lt in E. lia.
Qed.

Lemma readuntil_loop_tail (chunks : list bytes) :
  forall (r : StreamReader) (offset : nat) (rest : list Feed),
  _eof r = false ->
  ~ In sep (_buffer r ++ concat chunks) ->
  (N.of_nat (length (_buffer r ++ concat chunks)) <= _limit r)%N ->
  readuntil_loop (map FeedData chunks ++ FeedEof :: rest) r offset =
  (IncompleteReadError (_buffer r ++ concat chunks),
   mkStreamReader [] true (_exception r) (_limit r), rest).
Proof.
  induction chunks as [|c chunks IH]; intros r offset rest Heof Hnosep Hlim;
    rewrite readuntil_loop_eq; cbn [concat] in *.
  - rewrite app_nil_r in *.
    destruct (scan_nosep r offset Hnosep Hlim) as [offset' ->].
    rewrite Heof. cbn [map app feed]. rewrite readuntil_loop_eq.
    destruct (scan_nosep (mkStreamReader (_buffer r) true (_exception r) (_limit r))
                offset' Hnosep Hlim) as [offset'' ->].
    reflexivity.
  - assert (Hb : ~ In sep (_buffer r)).
    { intros H. apply Hnosep, in_or_app. now left. }
    assert (Hl : (N.of_nat (length (_buffer r)) <= _limit r)%N).
    { rewrite length_app in Hlim. lia. }
    destruct (scan_nosep r offset Hb Hl) as [offset' ->].
    rewrite Heof. cbn [map app feed].
    rewrite (IH (set_buffer r (_buffer r ++ c)) offset' rest Heof);
      cbn [set_buffer _buffer _exception _limit]; rewrite <- ?app_assoc;
      [reflexivity | assumption | assumption].
Qed.

Lemma readline_tail (chunks : list bytes) (r : StreamReader) (rest : list Feed) :
  _eof r = false -> _exception r = None ->
  ~ In sep (_buffer r ++ concat chunks) ->
  (N.of_nat (length (_buffer r ++ concat chunks)) <= _limit r)%N ->
  readline (map FeedData chunks ++ FeedEof :: rest) r =
  (Returns (_buffer r ++ concat chunks), mkStreamReader [] true None (_limit r), rest).
Proof.
  intros Heof Hexc Hnosep Hlim. unfold readline, readuntil.
  now rewrite Hexc, (readuntil_loop_tail chunks r 0 rest Heof Hnosep Hlim), Hexc.
Qed.

(** *** What is returned while the stream is open

    A value returned with the stream still open afterwards was cut at a
    separator and ends with it; [_eof] is never reset. *)
Lemma readuntil_loop_open (pipe : list Feed) :
  forall (r : StreamReader) (offset : nat),
  match readuntil_loop pipe r offset with
  | (Chunk line, r', _) =>
      _eof r' = false -> _eof r = false /\ exists body, line = body ++ [sep]
  | (IncompleteReadError _, r', _) => _eof r' = false -> False
  | _ => True
  end.
Proof.
  induction pipe as [|f pipe IH]; intros r offset;
    rewrite readuntil_loop_eq; destruct (scan r offset) as [isep|n|offset'] eqn:Hscan;
    try exact I.
  1, 3: unfold take_chunk; destruct (_limit r <? N.of_nat isep)%N; [exact I|];
    cbn [set_buffer _eof]; intros Heof; split; [exact Heof|];
    apply scan_found_sound, firstn_through in Hscan as [-> _]; eauto.
  - destruct (_eof r) eqn:Heof; [|exact I]. cbn [set_buffer _eof]. congruence.
  - destruct (_eof r) eqn:Heof; [cbn [set_buffer _eof]; congruence|].
    destruct f as [data| |exc]; cbn [feed]; try exact I.
    + specialize (IH (set_buffer r (_buffer r ++ data)) offset').
      destruct (readuntil_loop pipe _ offset') as [[[line|partial|k|exc|] r'] pipe'];
        try exact I; [|exact IH].
      intros H. split; [reflexivity | apply IH, H].
    + specialize (IH (mkStreamReader (_buffer r) true (_exception r) (_limit r)) offset').
      destruct (readuntil_loop pipe _ offset') as [[[line|partial|k|exc|] r'] pipe'];
        try exact I; [|exact IH].
      intros H. apply IH in H as [H _]. discriminate.
Qed.

Lemma readline_open (pipe : list Feed) (r : StreamReader) :
  match readline pipe r with
  | (Returns line, r', _) =>
      _eof r' = false -> _eof r = false /\ exists body, line = body ++ [sep]
  | _ => True
  end.
Proof.
  unfold readline, readuntil. destruct (_exception r); [exact I|].
  pose proof (readuntil_loop_open pipe r 0) as H.
  destruct (readuntil_loop pipe r 0) as [[[line|partial|k|exc|] r'] pipe'];
    try exact I; [exact H | intros Heof; contradiction (H Heof)].
Qed.

(** *** A pipe that breaks

    The child's writes are followed by a read error of the transport.  Each
    call of [readline] then either returns a line, using up at least one of
    the bytes still to come, or raises: the transport's exception, or
    [ValueError] for data over the limit.  It neither waits for good nor
    returns at end of file. *)
Lemma scan_overrun (r : StreamReader) (offset n : nat) :
  scan r offset = Overrun n -> (_limit r < N.of_nat (length (_buffer r)))%N.
Proof.
  unfold scan. destruct (1 <=? length (_buffer r) - offset); [|discriminate].
  destruct (find (_buffer r) offset); [discriminate|].
  rewrite Nat.add_sub.
  destruct (_limit r <? N.of_nat (length (_buffer r)))%N eqn:E; [|discriminate].
  intros _. now apply N.ltb_lt.
Qed.

Lemma readuntil_loop_breaking (chunks : list bytes) :
  forall (r : StreamReader) (offset : nat) (exc : Exception) (rest : list Feed),
  _eof r = false ->
  match readuntil_loop (map FeedData chunks ++ SetException exc :: rest) r offset with
  | (Chunk line, r', pipe') =>
      exists chunks',
        pipe' = map FeedData chunks' ++ SetException exc :: rest /\
        _eof r' = false /\ _exception r' = _exception r /\ _limit r' = _limit r /\
        to_come r' chunks' < to_come r chunks
  | (LimitOverrunError _, _, _) => (_limit r < N.of_nat (to_come r chunks))%N
  | (Raise e, _, _) => e = exc
  | _ => False
  end.
Proof.
  induction chunks as [|c chunks IH]; intros r offset exc rest Heof;
    rewrite readuntil_loop_eq; destruct (scan r offset) as [isep|n|offset'] eqn:Hscan;
    rewrite ?Heof.
  1, 4: unfold take_chunk; destruct (_limit r <? N.of_nat isep)%N eqn:E;
    apply scan_found_sound, firstn_through in Hscan as [_ Hlt]; unfold to_come;
    [ apply N.ltb_lt in E; lia
    | eexists; repeat split; [exact Heof|]; cbn [set_buffer _buffer];
      rewrite length_skipn; apply Nat.add_lt_mono_r; lia ].
  1, 3: apply scan_overrun in Hscan; unfold to_come; lia.
  - reflexivity.
  - cbn [map app feed].
    specialize (IH (set_buffer r (_buffer r ++ c)) offset' exc rest Heof).
    assert (Hsame : to_come (set_buffer r (_buffer r ++ c)) chunks = to_come r (c :: chunks)).
    { unfold to_come. cbn [set_buffer _buffer concat]. rewrite !length_app. lia. }
    destruct (readuntil_loop _ _ offset') as [[[line|partial|k|e|] r'] pipe'];
      try exact IH.
    + destruct IH as (chunks' & -> & Heof' & Hexc' & Hlim' & Hlt).
      exists chunks'. repeat split; try assumption. now rewrite <- Hsame.
    + now rewrite <- Hsame.
Qed.

Lemma readline_breaking (chunks : list bytes) (r : StreamReader)
      (exc : Exception) (rest : list Feed) :
  _eof r = false -> _exception r = None ->
  match readline (map FeedData chunks ++ SetException exc :: rest) r with
  | (Returns line, r', pipe') =>
      exists chunks',
        pipe' = map FeedData chunks' ++ SetException exc :: rest /\
        _eof r' = false /\ _exception r' = None /\ _limit r' = _limit r /\
        to_come r' chunks' < to_come r chunks
  | (Raises e, _, _) =>
      e = exc \/ (e = ValueError /\ (_limit r < N.of_nat (to_come r chunks))%N)
  | (Suspends, _, _) => False
  end.
Proof.
  intros Heof Hexc. unfold readline, readuntil. rewrite Hexc.
  pose proof (readuntil_loop_breaking chunks r 0 exc rest Heof) as H.
  destruct (readuntil_loop _ r 0) as [[[line|partial|k|e|] r'] pipe'];
    try contradiction; [| now right | now left].
  destruct H as (chunks' & -> & ? & ? & ? & ?). exists chunks'.
  repeat split; congruence || assumption.
Qed.

(** [_eof] is never reset, however the call ends. *)
Lemma readuntil_loop_eof_sticky (pipe : list Feed) (r : StreamReader) (offset : nat) :
  _eof r = true -> _eof (snd (fst (readuntil_loop pipe r offset))) = true.
Proof.
  intros Heof. rewrite readuntil_loop_eq.
  destruct (scan r offset) as [isep|n|offset']; rewrite ?Heof; try exact Heof.
  unfold take_chunk. destruct (_limit r <? N.of_nat isep)%N; exact Heof.
Qed.

Lemma readline_eof_sticky (pipe : list Feed) (r : StreamReader) :
  _eof r = true -> _eof (snd (fst (readline pipe r))) = true.
Proof.
  intros Heof. unfold readline, readuntil.
  destruct (_exception r); [exact Heof|].
  pose proof (readuntil_loop_eof_sticky pipe r 0 Heof) as H.
  destruct (readuntil_loop pipe r 0) as [[[line|partial|k|exc|] r'] pipe'];
    cbn [fst snd] in *; try exact H.
  destruct (startswith_sep (_buffer r') k); exact H.
Qed.

End StreamFacts.

Module OverlongFacts.
Import Streams StreamFacts.

(** A line longer than the limit, fed whole to a fresh reader: [readuntil]
    finds the separator beyond the limit, and [readline] raises
    [ValueError]. *)
Lemma readline_overlong (body rest : bytes) (tail : list Feed) (limit : N) :
  ~ In sep body -> (limit < N.of_nat (length body))%N ->
  exists r',
    readline (FeedData (body ++ sep :: rest) :: tail) (new_reader limit) =
    (Raises ValueError, r', tail).
Proof.
  intros Hbody Hlong. unfold readline, readuntil. cbn [_exception new_reader].
  rewrite readuntil_loop_eq. change (scan (new_reader limit) 0) with (NotYet 0).
  cbn [new_reader _eof _buffer feed set_buffer app _exception _limit].
  rewrite readuntil_loop_eq.
  rewrite (scan_found (set_buffer (new_reader limit) (body ++ sep :: rest)) 0 body rest
             eq_refl Hbody (Nat.le_0_l _)).
  unfold take_chunk. cbn [_limit set_buffer new_reader].
  apply N.ltb_lt in Hlong. rewrite Hlong. eexists. reflexivity.
Qed.

End OverlongFacts.

(** * Facts about [print] *)

Module ReprFacts.
Import Streams Script Runtime Observe.

Lemma string_length_app (a b : string) :
  String.length (a ++ b) = String.length a + String.length b.
Proof. induction a as [|x a IH]; cbn; now rewrite ?IH. Qed.

Lemma string_of_list_ascii_length (l : list ascii) :
  String.length (string_of_list_ascii l) = length l.
Proof. induction l as [|x l IH]; cbn; now rewrite ?IH. Qed.

Lemma string_of_list_byte_length (b : bytes) :
  String.length (string_of_list_byte b) = length b.
Proof.
  unfold string_of_list_byte. now rewrite string_of_list_ascii_length, length_map.
Qed.

(** Every byte takes at least one character of the representation. *)
Lemma repr_byte_length (quote c : byte) : 1 <= length (repr_byte quote c).
Proof.
  unfold repr_byte.
  repeat match goal with |- context [if ?b then _ else _] => destruct b end;
    cbn [length]; lia.
Qed.

Lemma repr_bytes_length (quote : byte) (b : bytes) :
  length b <= length (flat_map (repr_byte quote) b).
Proof.
  induction b as [|c b IH]; cbn [flat_map length]; [lia|].
  rewrite length_app. pose proof (repr_byte_length quote c). lia.
Qed.

(** [b], a quote, the bytes, a quote. *)
Lemma bytes_repr_length (b : bytes) : length b + 3 <= String.length (bytes_repr b).
Proof.
  unfold bytes_repr. rewrite string_of_list_ascii_length. cbn [length].
  rewrite length_app. cbn [length].
  match goal with |- context [repr_byte ?q] => pose proof (repr_bytes_length q b) end.
  lia.
Qed.

Lemma print_text_length (b : bytes) : length b + 4 <= String.length (print_text b).
Proof.
  unfold print_text. rewrite string_length_app. cbn [String.length].
  pose proof (bytes_repr_length b). lia.
Qed.

(** What [print] writes for a bytes value is never the text the bytes
    spell. *)
Lemma print_text_differs (b : bytes) :
  String.eqb (print_text b) (string_of_list_byte b) = false.
Proof.
  apply String.eqb_neq. intros H. apply (f_equal String.length) in H.
  rewrite string_of_list_byte_length in H. pose proof (print_text_length b). lia.
Qed.

(** It opens as a bytes literal does: [b] and a quote. *)
Lemma print_text_literal (b : bytes) :
  exists quote text,
    (quote = "'"%char \/ quote = ascii_of_byte dquote) /\
    print_text b = String "b" (String quote text).
Proof.
  unfold print_text, bytes_repr.
  destruct (contains squote b && negb (contains dquote b)); cbn; eauto.
Qed.

End ReprFacts.

(** * Facts about executions *)

Module RunFacts.
Import Streams Script Runtime Observe StreamFacts.

Lemma exec_loop_0 (w : World) : exec 0 loop w = Busy w.
Proof. reflexivity. Qed.

Lemma exec_loop_1 (w : World) :
  exec 1 loop w =
  match await_readline w with
  | Done line w1 => Busy w1
  | Throw exc w1 => Uncaught exc w1
  | Park w1 => Parked w1
  end.
Proof. reflexivity. Qed.

Lemma exec_loop_2 (w : World) :
  exec 2 loop w =
  match await_readline w with
  | Done line w1 =>
      match call_print line w1 with
      | Done _ w2 => Busy w2
      | Throw exc w2 => Uncaught exc w2
      | Park w2 => Parked w2
      end
  | Throw exc w1 => Uncaught exc w1
  | Park w1 => Parked w1
  end.
Proof. reflexivity. Qed.

Lemma exec_loop_turn (n : nat) (w : World) :
  exec (3 + n) loop w =
  match await_readline w with
  | Done line w1 =>
      match call_print line w1 with
      | Done _ w2 => exec n loop w2
      | Throw exc w2 => Uncaught exc w2
      | Park w2 => Parked w2
      end
  | Throw exc w1 => Uncaught exc w1
  | Park w1 => Parked w1
  end.
Proof. reflexivity. Qed.

Lemma exec_run (n : nat) (w : World) :
  exec (S n) run w =
  match create_subprocess_shell command PIPE w with
  | Done proc w1 => exec n loop w1
  | Throw exc w1 => Uncaught exc w1
  | Park w1 => Parked w1
  end.
Proof.
  change (exec (S n) run w)
    with (match create_subprocess_shell command PIPE w with
          | Done proc w1 => exec n (ITree.bind (Ret proc) (fun proc => ITree.forever (body proc))) w1
          | Throw exc w1 => Uncaught exc w1
          | Park w1 => Parked w1
          end).
  destruct (create_subprocess_shell command PIPE w) as [[] w1|exc w1|w1]; try reflexivity.
  destruct n; reflexivity.
Qed.

(** Unfold the loop as far as the fuel at hand reaches into its turn. *)
Ltac expose_turn :=
  first [ rewrite exec_loop_turn | rewrite exec_loop_2
        | rewrite exec_loop_1 | rewrite exec_loop_0 ].

(** *** [print], the call *)

Lemma call_print_cases (line : bytes) (w : World) :
  (stdout_error (os w) (writes (trace w)) = None /\
   call_print line w = Done tt (print line w)) \/
  (exists exc, stdout_error (os w) (writes (trace w)) = Some exc /\
               call_print line w = Throw exc w).
Proof.
  unfold call_print. destruct (stdout_error (os w) (writes (trace w))) as [exc|];
    [right; exists exc | left]; now split.
Qed.

Lemma call_print_accepted (line : bytes) (w : World) :
  stdout_error (os w) (writes (trace w)) = None ->
  call_print line w = Done tt (print line w).
Proof. intros H. unfold call_print. now rewrite H. Qed.

Lemma writes_app (tr1 tr2 : list Call) : writes (tr1 ++ tr2) = writes tr1 + writes tr2.
Proof.
  induction tr1 as [|[cmd|line|line] tr1 IH]; cbn [app writes]; now rewrite ?IH.
Qed.

Lemma writes_deliveries (tr : list Call) : writes tr = length (deliveries tr).
Proof.
  induction tr as [|[cmd|line|line] tr IH]; cbn [writes deliveries length]; now rewrite ?IH.
Qed.

Lemma writable_accepting (w : World) (n : nat) : writable (os w) -> accepting w n.
Proof. intros H j _. apply H. Qed.

(** A read leaves the writes as they were; a print that went through took
    one of them. *)
Lemma accepting_read (w : World) (c : option Child) (line : bytes) (n : nat) :
  accepting w n ->
  accepting (mkWorld (os w) c (sys_stdout w) (trace w ++ [Read line])) n.
Proof.
  intros H j Hj. cbn [os trace]. rewrite writes_app. cbn [writes].
  rewrite Nat.add_0_r. now apply H.
Qed.

Lemma accepting_print (w : World) (line : bytes) (n : nat) :
  accepting w (S n) -> accepting (print line w) n.
Proof.
  intros H j Hj. cbn [print os trace]. rewrite writes_app. cbn [writes].
  replace (writes (trace w) + 1 + j) with (writes (trace w) + S j) by lia.
  apply H. lia.
Qed.

Lemma accepting_now (w : World) (n : nat) :
  accepting w (S n) -> stdout_error (os w) (writes (trace w)) = None.
Proof. intros H. rewrite <- (Nat.add_0_r (writes (trace w))). apply H. lia. Qed.

Lemma accepting_less (w : World) (n m : nat) : m <= n -> accepting w n -> accepting w m.
Proof. intros Hle H j Hj. apply H. lia. Qed.

(** *** Any coroutine: the trace only grows, and an end is final *)

Lemma handle_trace {T : Type} (e : pipeE T) (w : World) :
  match handle e w with
  | Done _ w1 | Throw _ w1 | Park w1 => exists tl, trace w1 = trace w ++ tl
  end.
Proof.
  destruct e as [cmd out|proc|line]; cbn [handle].
  - unfold create_subprocess_shell.
    destruct (has_nul cmd); [exists []; now rewrite app_nil_r|].
    destruct (sh (os w)); [exists []; now rewrite app_nil_r|].
    destruct (MAX_ARG_STRLEN <? _)%N; [exists []; now rewrite app_nil_r | now eexists].
  - unfold await_readline.
    destruct (child w) as [[feeds [r|]]|]; try (exists []; now rewrite app_nil_r).
    destruct (readline feeds r) as [[[line|exc|] r'] feeds']; cbn [trace log set_child];
      [now eexists | |]; exists []; now rewrite app_nil_r.
  - unfold call_print. destruct (stdout_error (os w) (writes (trace w)));
      [exists []; now rewrite app_nil_r | now eexists].
Qed.

Lemma exec_trace_grows (n : nat) :
  forall (t : itree pipeE unit) (w : World),
  exists tl, trace (world_of (exec n t w)) = trace w ++ tl.
Proof.
  induction n as [|n IH]; intros t w; cbn [exec].
  - exists []. now rewrite app_nil_r.
  - destruct (observe t) as [r|t'|X e k].
    + exists []. now rewrite app_nil_r.
    + apply IH.
    + pose proof (handle_trace e w) as H.
      destruct (handle e w) as [v w1|exc w1|w1]; cbn [world_of]; try exact H.
      destruct H as [tl1 H1], (IH (k v) w1) as [tl2 H2].
      exists (tl1 ++ tl2). now rewrite H2, H1, app_assoc.
Qed.

Lemma exec_trace_mono (n : nat) :
  forall (m : nat) (t : itree pipeE unit) (w : World), n <= m ->
  exists tl, trace (world_of (exec m t w)) = trace (world_of (exec n t w)) ++ tl.
Proof.
  induction n as [|n IH]; intros m t w Hle.
  - apply exec_trace_grows.
  - destruct m as [|m]; [lia|]. cbn [exec].
    destruct (observe t) as [r|t'|X e k].
    + exists []. now rewrite app_nil_r.
    + apply IH. lia.
    + destruct (handle e w) as [v w1|exc w1|w1];
        [apply IH; lia | |]; exists []; now rewrite app_nil_r.
Qed.

(** Once the coroutine returned, raised or parked, more fuel changes
    nothing. *)
Lemma exec_final (n : nat) :
  forall (m : nat) (t : itree pipeE unit) (w : World), n <= m ->
  busy (exec n t w) = false -> exec m t w = exec n t w.
Proof.
  induction n as [|n IH]; intros m t w Hle Hn; [discriminate|].
  destruct m as [|m]; [lia|]. cbn [exec] in *.
  destruct (observe t) as [r|t'|X e k]; [reflexivity | apply IH; [lia | exact Hn] |].
  destruct (handle e w) as [v w1|exc w1|w1]; [apply IH; [lia | exact Hn] | |]; reflexivity.
Qed.

(** Still going at [m]: still going at any earlier step. *)
Lemma exec_busy_before (n m : nat) (t : itree pipeE unit) (w : World) :
  n <= m -> busy (exec m t w) = true -> busy (exec n t w) = true.
Proof.
  intros Hle Hm. destruct (busy (exec n t w)) eqn:Hn; [reflexivity|].
  rewrite (exec_final n m t w Hle Hn) in Hm. congruence.
Qed.

(** *** The loop, turn by turn *)

(** A turn of the loop takes three steps: induction follows. *)
Lemma three_step_ind (P : nat -> Prop) :
  P 0 -> P 1 -> P 2 -> (forall n, P n -> P (3 + n)) -> forall n, P n.
Proof.
  intros H0 H1 H2 Hturn.
  assert (H : forall n, P n /\ P (S n) /\ P (S (S n))).
  { induction n as [|n (Ha & Hb & Hc)]; repeat split; auto. exact (Hturn n Ha). }
  intros n. apply H.
Qed.

(** How [await proc.stdout.readline()] leaves the world. *)
Lemma await_readline_cases (w : World) :
  match await_readline w with
  | Done line w1 =>
      exists feeds r r' feeds',
        child w = Some (mkChild feeds (Some r)) /\
        readline feeds r = (Returns line, r', feeds') /\
        w1 = mkWorld (os w) (Some (mkChild feeds' (Some r'))) (sys_stdout w)
                     (trace w ++ [Read line])
  | Throw _ w1 | Park w1 =>
      os w1 = os w /\ sys_stdout w1 = sys_stdout w /\ trace w1 = trace w
  end.
Proof.
  unfold await_readline.
  destruct (child w) as [[feeds [r|]]|] eqn:Hc; try (repeat split; reflexivity).
  destruct (readline feeds r) as [[[line|exc|] r'] feeds'] eqn:Hr;
    try (repeat split; reflexivity).
  exists feeds, r, r', feeds'. repeat split; assumption.
Qed.

Lemma await_readline_writes (w w1 : World) (line : bytes) :
  await_readline w = Done line w1 ->
  os w1 = os w /\ writes (trace w1) = writes (trace w).
Proof.
  intros Hread. pose proof (await_readline_cases w) as H. rewrite Hread in H.
  destruct H as (feeds & r & r' & feeds' & _ & _ & ->). cbn [os trace].
  rewrite writes_app. cbn [writes]. split; [reflexivity | lia].
Qed.

Lemma deliveries_app (tr1 tr2 : list Call) :
  deliveries (tr1 ++ tr2) = deliveries tr1 ++ deliveries tr2.
Proof.
  induction tr1 as [|[cmd|line|line] tr1 IH]; cbn [app deliveries]; now rewrite ?IH.
Qed.

Lemma reads_app (tr1 tr2 : list Call) : reads (tr1 ++ tr2) = reads tr1 ++ reads tr2.
Proof.
  induction tr1 as [|[cmd|line|line] tr1 IH]; cbn [app reads]; now rewrite ?IH.
Qed.

Lemma string_app_assoc (a b c : string) : ((a ++ b) ++ c = a ++ (b ++ c))%string.
Proof. induction a as [|x a IH]; cbn; now rewrite ?IH. Qed.

Lemma string_app_nil_r (a : string) : (a ++ "" = a)%string.
Proof. induction a as [|x a IH]; cbn; now rewrite ?IH. Qed.

(** The shape of what the loop adds to the trace and to [sys.stdout],
    whenever it is looked at, and however it ended. *)
Lemma loop_turns (fuel : nat) :
  forall w : World,
  exists tl,
    Turns tl /\
    trace (world_of (exec fuel loop w)) = trace w ++ tl /\
    sys_stdout (world_of (exec fuel loop w)) =
      (sys_stdout w ++ text_of (deliveries tl))%string.
Proof.
  induction fuel as [| | |fuel IH] using three_step_ind; intros w;
    expose_turn;
    try (exists []; cbn; now rewrite app_nil_r, string_app_nil_r; auto using turns_nil);
    pose proof (await_readline_cases w) as H;
    destruct (await_readline w) as [line w1|exc w1|w1]; cbn [world_of];
    try (destruct H as (_ & -> & ->); exists []; cbn;
         rewrite app_nil_r, string_app_nil_r; auto using turns_nil);
    destruct H as (feeds & r & r' & feeds' & _ & _ & ->).
  - exists [Read line]. cbn. rewrite string_app_nil_r. auto using turns_read.
  - destruct (call_print_cases line (mkWorld (os w) (Some (mkChild feeds' (Some r')))
                                             (sys_stdout w) (trace w ++ [Read line])))
      as [[_ ->] | (exc & _ & ->)]; cbn [world_of].
    + exists [Read line; Printed line]. cbn.
      rewrite <- app_assoc, string_app_nil_r. auto using turns_cons, turns_nil.
    + exists [Read line]. cbn. rewrite string_app_nil_r. auto using turns_read.
  - destruct (call_print_cases line (mkWorld (os w) (Some (mkChild feeds' (Some r')))
                                             (sys_stdout w) (trace w ++ [Read line])))
      as [[_ ->] | (exc & _ & ->)]; cbn [world_of].
    + destruct (IH (print line (mkWorld (os w) (Some (mkChild feeds' (Some r')))
                                        (sys_stdout w) (trace w ++ [Read line]))))
        as (tl & Htl & Htr & Hout).
      exists (Read line :: Printed line :: tl). repeat split.
      * now apply turns_cons.
      * rewrite Htr. cbn. now rewrite <- !app_assoc.
      * rewrite Hout. cbn. now rewrite string_app_assoc.
    + exists [Read line]. cbn. rewrite string_app_nil_r. auto using turns_read.
Qed.

(** [while True] has no way out but an exception. *)
Lemma loop_never_returns (fuel : nat) :
  forall w w' : World, exec fuel loop w <> Return w'.
Proof.
  induction fuel as [| | |fuel IH] using three_step_ind; intros w w';
    expose_turn;
    try discriminate;
    destruct (await_readline w) as [line w1|exc w1|w1]; try discriminate;
    destruct (call_print line w1) as [[] w2|exc w2|w2]; try discriminate.
  apply IH.
Qed.

(** Whole turns first, the rest after. *)
Lemma exec_loop_split (i : nat) :
  forall (n : nat) (w : World),
  exec (3 * i + n) loop w =
  match exec (3 * i) loop w with
  | Busy w' => exec n loop w'
  | o => o
  end.
Proof.
  induction i as [|i IH]; intros n w; [reflexivity|].
  replace (3 * S i + n) with (3 + (3 * i + n)) by lia.
  replace (3 * S i) with (3 + 3 * i) by lia.
  rewrite !exec_loop_turn.
  destruct (await_readline w) as [line w1|exc w1|w1]; try reflexivity.
  destruct (call_print line w1) as [[] w2|exc w2|w2]; try reflexivity.
  apply IH.
Qed.

Lemma firstn_exact {A : Type} (l more : list A) : firstn (length l) (l ++ more) = l.
Proof. now rewrite firstn_app, firstn_all, Nat.sub_diag, firstn_O, app_nil_r. Qed.

(** Turns on an exhausted stream: what they read, what they deliver. *)
Lemma reads_turns (k : nat) :
  reads (concat (repeat [Read []; Printed []] k)) = repeat [] k.
Proof. induction k as [|k IH]; cbn; now rewrite ?IH. Qed.

Lemma deliveries_empty_turns (k : nat) :
  deliveries (concat (repeat [Read []; Printed []] k)) = repeat [] k.
Proof. induction k as [|k IH]; cbn; now rewrite ?IH. Qed.

(** *** Between two turns the reader is settled *)

Lemma loop_settled (i : nat) :
  forall w w' : World,
  world_settled w -> exec (3 * i) loop w = Busy w' -> world_settled w'.
Proof.
  induction i as [|i IH]; intros w w' Hw Hrun.
  - rewrite Nat.mul_0_r, exec_loop_0 in Hrun. now injection Hrun as <-.
  - replace (3 * S i) with (3 + 3 * i) in Hrun by lia.
    rewrite exec_loop_turn in Hrun.
    pose proof (await_readline_cases w) as H.
    destruct (await_readline w) as [line w1|exc w1|w1]; try discriminate.
    destruct H as (feeds & r & r' & feeds' & Hc & Hr & ->).
    match type of Hrun with context [call_print line ?w1] =>
      destruct (call_print_cases line w1) as [[_ Hp] | (exc & _ & Hp)];
        rewrite Hp in Hrun; [|discriminate] end.
    eapply IH; [|exact Hrun]. intros r0 H0.
    unfold reader in H0. cbn in H0. injection H0 as <-.
    pose proof (readline_settled feeds r) as Hs. rewrite Hr in Hs.
    apply Hs, Hw. unfold reader. now rewrite Hc.
Qed.

Lemma spawned_settled (o : OS) : world_settled (spawned o).
Proof.
  intros r H. unfold reader in H. cbn in H. injection H as <-.
  split; [reflexivity | discriminate].
Qed.

(** *** Reading at end of file *)

Lemma await_readline_exhausted (w : World) (feeds : list Feed) (r : StreamReader) :
  child w = Some (mkChild feeds (Some r)) ->
  _eof r = true -> _buffer r = [] -> _exception r = None ->
  await_readline w =
  Done [] (mkWorld (os w) (child w) (sys_stdout w) (trace w ++ [Read []])).
Proof.
  intros Hc Heof Hbuf Hexc. unfold await_readline.
  rewrite Hc, (readline_exhausted feeds r Heof Hbuf Hexc). reflexivity.
Qed.

(** From a closed and drained stream every turn reads [b''] and prints it,
    and leaves reader and pipe as they were, for as many turns as
    [sys.stdout] takes the writes. *)
Lemma loop_exhausted (k : nat) :
  forall (w : World) (feeds : list Feed) (r : StreamReader),
  child w = Some (mkChild feeds (Some r)) ->
  _eof r = true -> _buffer r = [] -> _exception r = None ->
  accepting w k ->
  exists w',
    exec (3 * k) loop w = Busy w' /\
    os w' = os w /\ child w' = child w /\
    trace w' = trace w ++ concat (repeat [Read []; Printed []] k) /\
    sys_stdout w' = (sys_stdout w ++ text_of (repeat [] k))%string.
Proof.
  induction k as [|k IH]; intros w feeds r Hc Heof Hbuf Hexc Hacc.
  - exists w. cbn. now rewrite app_nil_r, string_app_nil_r.
  - replace (3 * S k) with (3 + 3 * k) by lia.
    rewrite exec_loop_turn, (await_readline_exhausted w feeds r Hc Heof Hbuf Hexc).
    pose proof (accepting_read w (child w) [] _ Hacc) as Hacc1.
    rewrite (call_print_accepted _ _ (accepting_now _ _ Hacc1)).
    destruct (IH (print [] (mkWorld (os w) (child w) (sys_stdout w) (trace w ++ [Read []])))
                 feeds r Hc Heof Hbuf Hexc (accepting_print _ _ _ Hacc1))
      as (w' & Hrun & Hos & Hch & Htr & Hout).
    exists w'. repeat split; try assumption.
    + rewrite Htr. cbn. now rewrite <- !app_assoc.
    + rewrite Hout. cbn [repeat text_of print sys_stdout]. now rewrite string_app_assoc.
Qed.

(** *** The spawn *)

Lemma exec_run_spawned (o : OS) (n : nat) :
  sh o = None -> exec (S n) run (boot o) = exec n loop (spawned o).
Proof.
  intros Hsh. rewrite exec_run. unfold create_subprocess_shell.
  cbn [os boot]. rewrite Hsh. reflexivity.
Qed.

Lemma exec_run_unspawned (o : OS) (n : nat) (exc : Exception) :
  sh o = Some exc -> exec (S n) run (boot o) = Uncaught exc (boot o).
Proof.
  intros Hsh. rewrite exec_run. unfold create_subprocess_shell.
  cbn [os boot]. rewrite Hsh. reflexivity.
Qed.

Lemma accepts_spawned (o : OS) (n : nat) : accepts o n -> accepting (spawned o) n.
Proof. intros H j Hj. apply H, Hj. Qed.

Lemma writable_accepts (o : OS) (n : nat) : writable o -> accepts o n.
Proof. intros H i _. apply H. Qed.

(** *** Lines on their way to the consumer *)

Lemma deliveries_turns (lines : list bytes) :
  deliveries (flat_map turn_of lines) = lines.
Proof. induction lines as [|l lines IH]; cbn; now rewrite ?IH. Qed.

Lemma set_buffer_same (r : StreamReader) : set_buffer r (_buffer r) = r.
Proof. now destruct r. Qed.

(** The data still to come starts with [lines], each within the reader's
    limit, and [sys.stdout] takes a write for each: the loop takes one turn
    per line, in order. *)
Lemma loop_delivers (lines : list bytes) :
  forall (w : World) (chunks : list bytes) (r : StreamReader)
         (tail : list Feed) (rest : bytes),
  child w = Some (mkChild (map FeedData chunks ++ tail) (Some r)) ->
  _eof r = false -> _exception r = None ->
  _buffer r ++ concat chunks = concat lines ++ rest ->
  Forall (line_within (_limit r)) lines ->
  accepting w (length lines) ->
  exists w' buf' chunks',
    exec (3 * length lines) loop w = Busy w' /\
    os w' = os w /\
    trace w' = trace w ++ flat_map turn_of lines /\
    child w' = Some (mkChild (map FeedData chunks' ++ tail) (Some (set_buffer r buf'))) /\
    buf' ++ concat chunks' = rest.
Proof.
  induction lines as [|l lines IH];
    intros w chunks r tail rest Hc Heof Hexc Hdata Hlines Hacc.
  - exists w, (_buffer r), chunks. cbn. now rewrite app_nil_r, set_buffer_same.
  - inversion Hlines as [|? ? (body & -> & Hbody & Hlim) Hlines']; subst.
    cbn [concat] in Hdata. rewrite <- !app_assoc in Hdata. cbn [app] in Hdata.
    destruct (readline_line chunks r body _ tail Heof Hexc Hbody Hdata Hlim)
      as (buf1 & chunks1 & Hread & Hleft).
    cbn [length]. replace (3 * S (length lines)) with (3 + 3 * length lines) by lia.
    rewrite exec_loop_turn. unfold await_readline. rewrite Hc, Hread.
    unfold log, set_child. cbn [os child sys_stdout trace].
    pose proof (accepting_read w (Some (mkChild (map FeedData chunks1 ++ tail)
                                                 (Some (set_buffer r buf1))))
                  (body ++ [sep]) _ Hacc) as Hacc1.
    rewrite (call_print_accepted _ _ (accepting_now _ _ Hacc1)).
    destruct (IH (print (body ++ [sep])
                        (mkWorld (os w) (Some (mkChild (map FeedData chunks1 ++ tail)
                                                       (Some (set_buffer r buf1))))
                                 (sys_stdout w) (trace w ++ [Read (body ++ [sep])])))
                 chunks1 (set_buffer r buf1) tail rest)
      as (w' & buf' & chunks' & Hrun & Hos & Htr & Hchild & Hrest);
      try assumption; try reflexivity.
    { now apply accepting_print. }
    exists w', buf', chunks'. repeat split; try assumption.
    rewrite Htr. cbn. now rewrite <- !app_assoc.
Qed.

(** *** The host stays the same *)

Lemma handle_os {T : Type} (e : pipeE T) (w : World) :
  match handle e w with
  | Done _ w1 | Throw _ w1 | Park w1 => os w1 = os w
  end.
Proof.
  destruct e as [cmd out|proc|line]; cbn [handle].
  - unfold create_subprocess_shell.
    destruct (has_nul cmd); [reflexivity|].
    destruct (sh (os w)); [reflexivity|].
    destruct (MAX_ARG_STRLEN <? _)%N; reflexivity.
  - unfold await_readline.
    destruct (child w) as [[feeds [r|]]|]; try reflexivity.
    destruct (readline feeds r) as [[[line|exc|] r'] feeds']; reflexivity.
  - unfold call_print. destruct (stdout_error (os w) (writes (trace w))); reflexivity.
Qed.

Lemma exec_os (n : nat) :
  forall (t : itree pipeE unit) (w : World), os (world_of (exec n t w)) = os w.
Proof.
  induction n as [|n IH]; intros t w; cbn [exec]; [reflexivity|].
  destruct (observe t) as [r|t'|X e k]; [reflexivity | apply IH |].
  pose proof (handle_os e w) as H.
  destruct (handle e w) as [v w1|exc w1|w1]; cbn [world_of]; try exact H.
  now rewrite IH.
Qed.

Lemma run_os (o : OS) (n : nat) (w : World) : exec n run (boot o) = Busy w -> os w = o.
Proof. intros H. pose proof (exec_os n run (boot o)) as Hos. now rewrite H in Hos. Qed.

(** *** A pipe that breaks under the loop *)

Lemma loop_breaks (m : nat) :
  forall (w : World) (chunks : list bytes) (r : StreamReader)
         (exc : Exception) (rest : list Feed),
  child w = Some (mkChild (map FeedData chunks ++ SetException exc :: rest) (Some r)) ->
  _eof r = false -> _exception r = None -> to_come r chunks <= m ->
  exists e w',
    (e = exc \/
     (e = ValueError /\ (_limit r < N.of_nat (to_come r chunks))%N) \/
     (exists i, stdout_error (os w) i = Some e)) /\
    forall fuel, 3 * m + 1 <= fuel -> exec fuel loop w = Uncaught e w'.
Proof.
  induction m as [|m IH]; intros w chunks r exc rest Hc Heof Hexc Hm;
    pose proof (readline_breaking chunks r exc rest Heof Hexc) as H;
    destruct (readline _ r) as [[[line|e|] r'] feeds'] eqn:Hread; try contradiction.
  - destruct H as (chunks' & _ & _ & _ & _ & Hlt). lia.
  - exists e, (set_child w (mkChild feeds' (Some r'))).
    split; [destruct H as [H|H]; [now left | right; now left]|].
    intros [|fuel] Hfuel; [lia|].
    cbn [exec]. cbn. unfold await_readline. now rewrite Hc, Hread.
  - destruct H as (chunks' & -> & Heof' & Hexc' & Hlim' & Hlt).
    set (w1 := mkWorld (os w)
                 (Some (mkChild (map FeedData chunks' ++ SetException exc :: rest) (Some r')))
                 (sys_stdout w) (trace w ++ [Read line])).
    assert (Hturn : forall n, exec (3 + n) loop w =
              match call_print line w1 with
              | Done _ w2 => exec n loop w2
              | Throw e w2 => Uncaught e w2
              | Park w2 => Parked w2
              end).
    { intros n. rewrite exec_loop_turn. unfold await_readline. now rewrite Hc, Hread. }
    destruct (call_print_cases line w1) as [[_ Hp] | (e & Herr & Hp)].
    + destruct (IH (print line w1) chunks' r' exc rest eq_refl Heof' Hexc')
        as (e & w' & He & Hrun); [lia|].
      exists e, w'. split.
      * destruct He as [He | [[He Hover] | He]];
          [now left | right; left; split; [exact He | lia] | right; right; exact He].
      * intros fuel Hfuel. replace fuel with (3 + (fuel - 3)) by lia.
        rewrite Hturn, Hp. apply Hrun. lia.
    + exists e, w1. split; [right; right; now exists (writes (trace w1))|].
      intros fuel Hfuel. replace fuel with (3 + (fuel - 3)) by lia.
      now rewrite Hturn, Hp.
  - exists e, (set_child w (mkChild feeds' (Some r'))).
    split; [destruct H as [H|H]; [now left | right; now left]|].
    intros [|fuel] Hfuel; [lia|].
    cbn [exec]. cbn. unfold await_readline. now rewrite Hc, Hread.
Qed.

(** *** What was read while the stream is open *)

(** A stream found open after a call was open before it. *)
Lemma await_readline_open (w : World) :
  stream_open (after (await_readline w)) -> stream_open w.
Proof.
  unfold await_readline, stream_open, reader.
  destruct (child w) as [[feeds [r|]]|] eqn:Hc; cbn [after]; rewrite ?Hc; try exact (fun H => H).
  pose proof (readline_eof_sticky feeds r) as Hs.
  destruct (readline feeds r) as [[res r'] feeds']. cbn [fst snd] in Hs.
  intros (r0 & Hr0 & Hopen). exists r. split; [reflexivity|].
  destruct (_eof r); [|reflexivity].
  destruct res; cbn in Hr0; injection Hr0 as <-; rewrite Hs in Hopen; congruence.
Qed.

Lemma await_readline_terminated (w w1 : World) (line : bytes) :
  await_readline w = Done line w1 -> stream_open w1 -> newline_terminated line.
Proof.
  intros Hdone (r1 & Hr1 & Hopen).
  pose proof (await_readline_cases w) as H. rewrite Hdone in H.
  destruct H as (feeds & r & r' & feeds' & _ & Hread & ->).
  unfold reader in Hr1. cbn in Hr1. injection Hr1 as <-.
  pose proof (readline_open feeds r) as Ho. rewrite Hread in Ho.
  now apply Ho.
Qed.

Lemma loop_reads_terminated (fuel : nat) :
  forall w : World,
  reads_terminated w -> reads_terminated (world_of (exec fuel loop w)).
Proof.
  assert (Hread : forall w line w1, reads_terminated w ->
            await_readline w = Done line w1 -> reads_terminated w1).
  { intros w line w1 Hw Hdone Hopen.
    pose proof (await_readline_terminated w w1 line Hdone Hopen) as Hline.
    pose proof (await_readline_open w) as Hback. rewrite Hdone in Hback.
    pose proof (await_readline_cases w) as H. rewrite Hdone in H.
    destruct H as (feeds & r & r' & feeds' & _ & _ & ->). cbn [trace].
    rewrite reads_app. apply Forall_app. split; [apply Hw, Hback, Hopen|].
    cbn. now constructor. }
  assert (Hprint : forall w line, reads_terminated w -> reads_terminated (print line w)).
  { intros w line Hw Hopen. cbn [print trace]. rewrite reads_app, app_nil_r.
    apply Hw, Hopen. }
  assert (Hstop : forall w w1, reads_terminated w ->
            after (await_readline w) = w1 -> trace w1 = trace w -> reads_terminated w1).
  { intros w w1 Hw <- Htr Hopen. rewrite Htr. apply Hw, await_readline_open, Hopen. }
  induction fuel as [| | |fuel IH] using three_step_ind; intros w Hw;
    expose_turn;
    try exact Hw;
    pose proof (await_readline_cases w) as H;
    destruct (await_readline w) as [line w1|exc w1|w1] eqn:Hawait; cbn [world_of];
    try (apply (Hstop w w1 Hw); [now rewrite Hawait | apply H]).
  - exact (Hread _ _ _ Hw Hawait).
  - destruct (call_print_cases line w1) as [[_ ->] | (exc & _ & ->)]; cbn [world_of].
    + apply Hprint. exact (Hread _ _ _ Hw Hawait).
    + exact (Hread _ _ _ Hw Hawait).
  - destruct (call_print_cases line w1) as [[_ ->] | (exc & _ & ->)]; cbn [world_of].
    + apply IH, Hprint. exact (Hread _ _ _ Hw Hawait).
    + exact (Hread _ _ _ Hw Hawait).
Qed.

(** *** What is delivered is what was read *)

Lemma turns_reads (tl : list Call) :
  Turns tl ->
  exists pending, reads tl = deliveries tl ++ pending /\ length pending <= 1.
Proof.
  induction 1 as [|line|line tr _ (pending & IH & Hlen)].
  - exists []. split; [reflexivity | cbn; lia].
  - exists [line]. split; [reflexivity | cbn; lia].
  - exists pending. cbn. now rewrite IH.
Qed.

(** *** [run] as a whole *)

Lemma run_never_returns (o : OS) (fuel : nat) (w : World) :
  exec fuel run (boot o) <> Return w.
Proof.
  destruct fuel as [|fuel]; [discriminate|]. rewrite exec_run.
  destruct (create_subprocess_shell command PIPE (boot o)); try discriminate.
  apply loop_never_returns.
Qed.

(** A run that is still going after its first step did spawn. *)
Lemma run_busy_spawned (o : OS) (n : nat) (w : World) :
  exec (S n) run (boot o) = Busy w -> sh o = None.
Proof.
  destruct (sh o) as [exc|] eqn:Hsh; [|reflexivity].
  rewrite (exec_run_unspawned o n exc Hsh). discriminate.
Qed.

Lemma reader_child (w : World) (r : StreamReader) :
  reader w = Some r -> exists feeds, child w = Some (mkChild feeds (Some r)).
Proof.
  unfold reader. destruct (child w) as [[feeds out]|]; [|discriminate].
  cbn. intros ->. now exists feeds.
Qed.

(** The stream is found closed when a turn starts: every later turn reads
    [b''] and prints it, for as many turns as [sys.stdout] takes the
    writes. *)
Lemma run_closed_turns (o : OS) (i : nat) (w : World) (k : nat) :
  exec (1 + 3 * i) run (boot o) = Busy w -> stream_closed w -> accepting w k ->
  exists w',
    exec (1 + 3 * (i + k)) run (boot o) = Busy w' /\
    os w' = os w /\ child w' = child w /\
    trace w' = trace w ++ concat (repeat [Read []; Printed []] k) /\
    sys_stdout w' = (sys_stdout w ++ text_of (repeat [] k))%string.
Proof.
  intros Hrun (r & Hr & Heof) Hacc.
  pose proof (run_busy_spawned o _ w Hrun) as Hsh.
  cbn [Nat.add] in *. rewrite (exec_run_spawned o (3 * i) Hsh) in Hrun.
  rewrite (exec_run_spawned o (3 * (i + k)) Hsh).
  destruct (loop_settled i _ _ (spawned_settled o) Hrun r Hr) as [Hexc Hbuf].
  destruct (reader_child w r Hr) as [feeds Hc].
  replace (3 * (i + k)) with (3 * i + 3 * k) by lia.
  rewrite exec_loop_split, Hrun.
  exact (loop_exhausted k w feeds r Hc Heof (Hbuf Heof) Hexc Hacc).
Qed.

Lemma run_closed_busy (o : OS) (i : nat) (w : World) :
  writable o ->
  exec (1 + 3 * i) run (boot o) = Busy w -> stream_closed w ->
  forall fuel, busy (exec fuel run (boot o)) = true.
Proof.
  intros Hwr Hrun Hclosed fuel.
  assert (Hacc : accepting w fuel).
  { apply writable_accepting. now rewrite (run_os o _ w Hrun). }
  destruct (run_closed_turns o i w fuel Hrun Hclosed Hacc) as (w' & Hlater & _).
  apply (exec_busy_before fuel (1 + 3 * (i + fuel))); [lia|]. now rewrite Hlater.
Qed.

(** The shell finds no executable for [command]: its output closes with
    nothing written, and the first turn of the loop reads [b''] and, the
    write taken, prints it. *)
Lemma run_missing_executable (o : OS) :
  sh o = None -> lookup o command = None -> accepts o 1 ->
  exists w1,
    exec (1 + 3 * 1) run (boot o) = Busy w1 /\ stream_closed w1 /\
    trace w1 = [Spawned command; Read []; Printed []].
Proof.
  intros Hsh Hlookup Hacc. change (1 + 3 * 1) with (S (3 + 0)).
  rewrite (exec_run_spawned o _ Hsh), exec_loop_turn.
  unfold await_readline, spawned. cbn [child]. rewrite Hlookup.
  assert (Hr : readline [FeedEof] (new_reader _DEFAULT_LIMIT) =
               (Returns [], mkStreamReader [] true None _DEFAULT_LIMIT, [])) by reflexivity.
  rewrite Hr. unfold log, set_child. cbn [os child sys_stdout trace].
  rewrite call_print_accepted by (cbn; apply Hacc; lia).
  eexists. split; [reflexivity|]. split; [|reflexivity].
  eexists. split; reflexivity.
Qed.

(** Wherever a run stands with the stream closed, the loop comes round to
    its next turn, the stream still closed and nothing more read, when
    [sys.stdout] takes the writes. *)
Lemma run_closed_next_turn (o : OS) (n : nat) (w : World) :
  writable o ->
  exec n run (boot o) = Busy w -> stream_closed w ->
  exists i w',
    n <= 1 + 3 * i /\ exec (1 + 3 * i) run (boot o) = Busy w' /\
    stream_closed w' /\ reads (trace w') = reads (trace w).
Proof.
  intros Hwr Hrun Hclosed. destruct n as [|m].
  { injection Hrun as <-. destruct Hclosed as (r & Hr & _). discriminate. }
  pose proof (run_busy_spawned o m w Hrun) as Hsh.
  rewrite (exec_run_spawned o m Hsh) in Hrun.
  pose proof (Nat.div_mod_eq m 3) as Hm.
  pose proof (Nat.mod_upper_bound m 3 ltac:(discriminate)) as Hj.
  set (i := m / 3) in *. set (j := m mod 3) in *.
  rewrite Hm, exec_loop_split in Hrun.
  destruct (exec (3 * i) loop (spawned o)) as [w0|exc w0|w0|w0] eqn:Hhead; try discriminate.
  assert (Hos0 : os w0 = o).
  { pose proof (exec_os (3 * i) loop (spawned o)) as H. now rewrite Hhead in H. }
  assert (Hnext : forall line w1, await_readline w0 = Done line w1 ->
            call_print line w1 = Done tt (print line w1) /\
            exec (1 + 3 * S i) run (boot o) = Busy (print line w1)).
  { intros line w1 Hawait.
    destruct (await_readline_writes w0 w1 line Hawait) as [Hos1 Hwr1].
    assert (Hp : call_print line w1 = Done tt (print line w1)).
    { apply call_print_accepted. rewrite Hos1, Hos0. apply Hwr. }
    split; [exact Hp|].
    cbn [Nat.add]. rewrite (exec_run_spawned o _ Hsh).
    replace (3 * S i) with (3 * i + (3 + 0)) by lia.
    now rewrite exec_loop_split, Hhead, exec_loop_turn, Hawait, Hp. }
  destruct j as [|[|[|j]]]; try lia.
  - rewrite exec_loop_0 in Hrun. injection Hrun as <-.
    exists i, w0. repeat split; try assumption; [lia|].
    cbn [Nat.add]. now rewrite (exec_run_spawned o _ Hsh).
  - rewrite exec_loop_1 in Hrun.
    destruct (await_readline w0) as [line w1|exc w1|w1] eqn:Hawait; try discriminate.
    injection Hrun as <-. destruct (Hnext line w1 eq_refl) as [_ Hturn].
    exists (S i), (print line w1). repeat split; [lia | exact Hturn | exact Hclosed|].
    cbn [print trace]. now rewrite reads_app, app_nil_r.
  - rewrite exec_loop_2 in Hrun.
    destruct (await_readline w0) as [line w1|exc w1|w1] eqn:Hawait; try discriminate.
    destruct (Hnext line w1 eq_refl) as [Hp Hturn]. rewrite Hp in Hrun.
    injection Hrun as <-.
    exists (S i), (print line w1). repeat split; [lia | exact Hturn | exact Hclosed].
Qed.

End RunFacts.

(** * How the child's output ends *)

Module EndingFacts.
Import Streams Script Runtime Observe StreamFacts RunFacts.

(** *** The child falls silent

    What is still to come holds no separator and fits the limit, and then
    the pipe has nothing more, not even its end: [readline] takes all of it
    into the buffer and waits for good. *)
Lemma readuntil_loop_silent (chunks : list bytes) :
  forall (r : StreamReader) (offset : nat),
  _eof r = false ->
  ~ In sep (_buffer r ++ concat chunks) ->
  (N.of_nat (length (_buffer r ++ concat chunks)) <= _limit r)%N ->
  readuntil_loop (map FeedData chunks) r offset =
  (Waiting, set_buffer r (_buffer r ++ concat chunks), []).
Proof.
  induction chunks as [|c chunks IH]; intros r offset Heof Hnosep Hlim;
    rewrite readuntil_loop_eq; cbn [concat] in *.
  - rewrite app_nil_r in *.
    destruct (scan_nosep r offset Hnosep Hlim) as [offset' ->].
    rewrite Heof. cbn [map]. now rewrite set_buffer_same.
  - assert (Hb : ~ In sep (_buffer r)).
    { intros H. apply Hnosep, in_or_app. now left. }
    assert (Hl : (N.of_nat (length (_buffer r)) <= _limit r)%N).
    { rewrite length_app in Hlim. lia. }
    destruct (scan_nosep r offset Hb Hl) as [offset' ->].
    rewrite Heof. cbn [map feed].
    rewrite (IH (set_buffer r (_buffer r ++ c)) offset' Heof);
      cbn [set_buffer _buffer _eof _exception _limit]; rewrite <- ?app_assoc;
      [reflexivity | assumption | assumption].
Qed.

Lemma readline_silent (chunks : list bytes) (r : StreamReader) :
  _eof r = false -> _exception r = None ->
  ~ In sep (_buffer r ++ concat chunks) ->
  (N.of_nat (length (_buffer r ++ concat chunks)) <= _limit r)%N ->
  readline (map FeedData chunks) r =
  (Suspends, set_buffer r (_buffer r ++ concat chunks), []).
Proof.
  intros Heof Hexc Hnosep Hlim. unfold readline, readuntil.
  now rewrite Hexc, (readuntil_loop_silent chunks r 0 Heof Hnosep Hlim).
Qed.

(** *** The pipe breaks in the middle of a line

    The same data, and then the transport's read fails: [readline] raises
    the transport's exception; the piece stays in the buffer of a reader
    that raises from now on. *)
Lemma readuntil_loop_cut (chunks : list bytes) :
  forall (r : StreamReader) (offset : nat) (exc : Exception) (rest : list Feed),
  _eof r = false ->
  ~ In sep (_buffer r ++ concat chunks) ->
  (N.of_nat (length (_buffer r ++ concat chunks)) <= _limit r)%N ->
  readuntil_loop (map FeedData chunks ++ SetException exc :: rest) r offset =
  (Raise exc, mkStreamReader (_buffer r ++ concat chunks) false (Some exc) (_limit r), rest).
Proof.
  induction chunks as [|c chunks IH]; intros r offset exc rest Heof Hnosep Hlim;
    rewrite readuntil_loop_eq; cbn [concat] in *.
  - rewrite app_nil_r in *.
    destruct (scan_nosep r offset Hnosep Hlim) as [offset' ->].
    rewrite Heof. cbn [map app feed]. now rewrite Heof.
  - assert (Hb : ~ In sep (_buffer r)).
    { intros H. apply Hnosep, in_or_app. now left. }
    assert (Hl : (N.of_nat (length (_buffer r)) <= _limit r)%N).
    { rewrite length_app in Hlim. lia. }
    destruct (scan_nosep r offset Hb Hl) as [offset' ->].
    rewrite Heof. cbn [map app feed].
    rewrite (IH (set_buffer r (_buffer r ++ c)) offset' exc rest Heof);
      cbn [set_buffer _buffer _eof _exception _limit]; rewrite <- ?app_assoc;
      [reflexivity | assumption | assumption].
Qed.

Lemma readline_cut (chunks : list bytes) (r : StreamReader)
      (exc : Exception) (rest : list Feed) :
  _eof r = false -> _exception r = None ->
  ~ In sep (_buffer r ++ concat chunks) ->
  (N.of_nat (length (_buffer r ++ concat chunks)) <= _limit r)%N ->
  readline (map FeedData chunks ++ SetException exc :: rest) r =
  (Raises exc, mkStreamReader (_buffer r ++ concat chunks) false (Some exc) (_limit r), rest).
Proof.
  intros Heof Hexc Hnosep Hlim. unfold readline, readuntil.
  now rewrite Hexc, (readuntil_loop_cut chunks r 0 exc rest Heof Hnosep Hlim).
Qed.

(** *** A line over the limit

    The data still to come starts with a line whose body is longer than the
    limit.  However the pipe cuts it, and whatever follows it, [readuntil]
    raises [LimitOverrunError]: either the buffer outgrows the limit with no
    separator in it, or the separator is found beyond the limit. *)
Lemma scan_nosep_cases (r : StreamReader) (offset : nat) :
  ~ In sep (_buffer r) ->
  (exists n, scan r offset = Overrun n) \/
  (exists offset',
     scan r offset = NotYet offset' /\
     (offset' = offset \/ offset' = length (_buffer r))).
Proof.
  intros Hb. unfold scan. rewrite find_miss by assumption.
  destruct (1 <=? length (_buffer r) - offset); [|right; eauto].
  rewrite Nat.add_sub.
  destruct (_limit r <? N.of_nat (length (_buffer r)))%N; [left | right]; eauto.
Qed.

Lemma readuntil_loop_overlong (chunks : list bytes) :
  forall (r : StreamReader) (offset : nat) (body rest : bytes) (tail : list Feed),
  _eof r = false -> ~ In sep body ->
  _buffer r ++ concat chunks = body ++ sep :: rest ->
  offset <= length body -> (_limit r < N.of_nat (length body))%N ->
  exists n r' pipe',
    readuntil_loop (map FeedData chunks ++ tail) r offset = (LimitOverrunError n, r', pipe').
Proof.
  induction chunks as [|c chunks IH]; intros r offset body rest tail Heof Hbody Hdata Hoff Hlim;
    rewrite readuntil_loop_eq;
    destruct (next_line_cases _ _ _ _ Hbody Hdata) as [(Hbuf & Hlen & Hmore) | (l & Hbuf & Hrest)].
  - now contradiction Hmore.
  - rewrite (scan_found _ _ _ _ Hbuf Hbody Hoff). unfold take_chunk.
    apply N.ltb_lt in Hlim. rewrite Hlim. eauto.
  - destruct (scan_nosep_cases r offset Hbuf) as [[n ->] | (offset' & -> & Hoff')]; [eauto|].
    rewrite Heof. cbn [map app feed].
    apply (IH (set_buffer r (_buffer r ++ c)) offset' body rest tail); try assumption.
    + cbn [set_buffer _buffer concat] in *. now rewrite <- app_assoc.
    + destruct Hoff' as [-> | ->]; assumption.
  - rewrite (scan_found _ _ _ _ Hbuf Hbody Hoff). unfold take_chunk.
    apply N.ltb_lt in Hlim. rewrite Hlim. eauto.
Qed.

Lemma readline_overlong_line (chunks : list bytes) (r : StreamReader)
      (body rest : bytes) (tail : list Feed) :
  _eof r = false -> _exception r = None -> ~ In sep body ->
  _buffer r ++ concat chunks = body ++ sep :: rest ->
  (_limit r < N.of_nat (length body))%N ->
  exists r' pipe',
    readline (map FeedData chunks ++ tail) r = (Raises ValueError, r', pipe').
Proof.
  intros Heof Hexc Hbody Hdata Hlim.
  destruct (readuntil_loop_overlong chunks r 0 body rest tail Heof Hbody Hdata
              (Nat.le_0_l _) Hlim) as (n & r' & pipe' & Hrun).
  unfold readline, readuntil. rewrite Hexc, Hrun. eauto.
Qed.

End EndingFacts.

Module AfterLinesFacts.
Import Streams Script Runtime Observe StreamFacts RunFacts EndingFacts.

(** The child's output starts with [lines], each within the limit, and
    [sys.stdout] takes a write for each: after the spawn and one turn per
    line the loop stands before what follows them, the lines delivered and
    printed. *)
Lemma run_after_lines (o : OS) (chunks lines : list bytes) (tail : list Feed) (rest : bytes) :
  sh o = None ->
  lookup o command = Some (map FeedData chunks ++ tail) ->
  concat chunks = concat lines ++ rest ->
  Forall (line_within _DEFAULT_LIMIT) lines ->
  accepts o (length lines) ->
  exists w1 buf1 chunks1,
    (forall n, exec (1 + (3 * length lines + n)) run (boot o) = exec n loop w1) /\
    os w1 = o /\
    trace w1 = Spawned command :: flat_map turn_of lines /\
    sys_stdout w1 = text_of lines /\
    child w1 = Some (mkChild (map FeedData chunks1 ++ tail)
                             (Some (set_buffer (new_reader _DEFAULT_LIMIT) buf1))) /\
    buf1 ++ concat chunks1 = rest.
Proof.
  intros Hsh Hlookup Hdata Hlines Hacc.
  destruct (loop_delivers lines (spawned o) chunks (new_reader _DEFAULT_LIMIT) tail rest)
    as (w1 & buf1 & chunks1 & Hrun1 & Hos1 & Htr1 & Hc1 & Hleft);
    try reflexivity; try assumption.
  { unfold spawned. cbn [child]. now rewrite Hlookup. }
  exists w1, buf1, chunks1. repeat split; try assumption.
  - intros n. cbn [Nat.add]. rewrite (exec_run_spawned o _ Hsh).
    now rewrite exec_loop_split, Hrun1.
  - destruct (loop_turns (3 * length lines) (spawned o)) as (tl & _ & Htr & Hout).
    rewrite Hrun1 in Htr, Hout. cbn [world_of] in Htr, Hout.
    rewrite Htr1 in Htr. apply app_inv_head in Htr. subst tl.
    now rewrite deliveries_turns in Hout.
Qed.

(** Once a run has ended, it stands there at every later step. *)
Lemma run_ended (o : OS) (n fuel : nat) (out : Outcome) :
  exec n run (boot o) = out -> busy out = false -> n <= fuel ->
  exec fuel run (boot o) = out.
Proof.
  intros Hrun Hout Hle. rewrite <- Hrun.
  apply exec_final; [exact Hle | now rewrite Hrun].
Qed.

Lemma deliveries_after_lines (lines : list bytes) :
  deliveries (Spawned command :: flat_map turn_of lines) = lines.
Proof. cbn [deliveries]. apply deliveries_turns. Qed.

Lemma reads_turns_of (lines : list bytes) : reads (flat_map turn_of lines) = lines.
Proof. induction lines as [|l lines IH]; cbn; now rewrite ?IH. Qed.

Lemma writes_after_lines (lines : list bytes) :
  writes (Spawned command :: flat_map turn_of lines) = length lines.
Proof. now rewrite writes_deliveries, deliveries_after_lines. Qed.

End AfterLinesFacts.

(** * What the output tells its reader *)

Module OutputFacts.
Import Streams Script Runtime Observe Console RunFacts ReprFacts.

(** *** Texts and their characters *)

Lemma list_ascii_of_string_app (a b : string) :
  list_ascii_of_string (a ++ b) = list_ascii_of_string a ++ list_ascii_of_string b.
Proof. induction a as [|x a IH]; cbn; now rewrite ?IH. Qed.

Lemma string_of_list_ascii_app (l1 l2 : list ascii) :
  string_of_list_ascii (l1 ++ l2) = (string_of_list_ascii l1 ++ string_of_list_ascii l2)%string.
Proof. induction l1 as [|x l1 IH]; cbn; now rewrite ?IH. Qed.

Lemma list_ascii_of_string_inj (a b : string) :
  list_ascii_of_string a = list_ascii_of_string b -> a = b.
Proof.
  intros H. rewrite <- (string_of_list_ascii_of_string a), <- (string_of_list_ascii_of_string b).
  now rewrite H.
Qed.

Lemma newlines_app (a b : string) : newlines (a ++ b) = newlines a + newlines b.
Proof. induction a as [|x a IH]; cbn [newlines String.append]; [reflexivity|]. rewrite IH. lia. Qed.

Lemma quote_chosen (b : bytes) :
  is_quote (if contains squote b && negb (contains dquote b) then dquote else squote).
Proof. destruct (contains squote b && negb (contains dquote b)); [now right | now left]. Qed.

(** *** One byte of the representation *)

(** No byte is shown with a raw newline. *)
Lemma repr_byte_newlines (q c : byte) :
  is_quote q -> newlines (string_of_list_ascii (repr_byte q c)) = 0.
Proof. intros [-> | ->]; destruct c; reflexivity. Qed.

(** No byte's representation opens with the quote. *)
Lemma repr_byte_head (q c : byte) (s t : list ascii) :
  is_quote q -> repr_byte q c ++ s = ascii_of_byte q :: t -> False.
Proof. intros [-> | ->]; destruct c; discriminate. Qed.

(** The representation of a byte reads back as that byte, whatever
    follows. *)
Lemma unrepr_repr_byte (q c : byte) (s : list ascii) :
  is_quote q -> unrepr_byte (repr_byte q c ++ s) = Some (c, s).
Proof. intros [-> | ->]; destruct c; reflexivity. Qed.

Lemma repr_byte_inj (q c1 c2 : byte) (s1 s2 : list ascii) :
  is_quote q -> repr_byte q c1 ++ s1 = repr_byte q c2 ++ s2 -> c1 = c2 /\ s1 = s2.
Proof.
  intros Hq H. apply (f_equal unrepr_byte) in H.
  rewrite !unrepr_repr_byte in H by assumption.
  injection H as -> ->. now split.
Qed.

(** *** The whole representation *)

Lemma repr_bytes_newlines (q : byte) (b : bytes) :
  is_quote q -> newlines (string_of_list_ascii (flat_map (repr_byte q) b)) = 0.
Proof.
  intros Hq. induction b as [|c b IH]; [reflexivity|].
  cbn [flat_map]. now rewrite string_of_list_ascii_app, newlines_app, repr_byte_newlines, IH.
Qed.

(** [print] ends the text of a value with the only newline in it. *)
Lemma print_text_newlines (b : bytes) : newlines (print_text b) = 1.
Proof.
  unfold print_text, bytes_repr. rewrite newlines_app.
  pose proof (quote_chosen b) as Hq.
  set (q := if contains squote b && negb (contains dquote b) then dquote else squote) in *.
  change ("b"%char :: ascii_of_byte q :: flat_map (repr_byte q) b ++ [ascii_of_byte q])
    with (["b"%char; ascii_of_byte q] ++ flat_map (repr_byte q) b ++ [ascii_of_byte q]).
  rewrite !string_of_list_ascii_app, !newlines_app, (repr_bytes_newlines q b Hq).
  destruct Hq as [-> | ->]; reflexivity.
Qed.

Lemma text_of_newlines (values : list bytes) : newlines (text_of values) = length values.
Proof.
  induction values as [|b values IH]; [reflexivity|].
  cbn [text_of length]. now rewrite newlines_app, print_text_newlines, IH.
Qed.

(** The bytes between the quotes read back, up to the closing quote. *)
Lemma repr_bytes_inj (q : byte) (b1 : bytes) :
  is_quote q ->
  forall (b2 : bytes) (t1 t2 : list ascii),
  flat_map (repr_byte q) b1 ++ ascii_of_byte q :: t1 =
  flat_map (repr_byte q) b2 ++ ascii_of_byte q :: t2 ->
  b1 = b2 /\ t1 = t2.
Proof.
  intros Hq. induction b1 as [|c1 b1 IH]; intros [|c2 b2] t1 t2 H; cbn [flat_map app] in H.
  - injection H as ->. now split.
  - symmetry in H. rewrite <- app_assoc in H. contradiction (repr_byte_head _ _ _ _ Hq H).
  - rewrite <- app_assoc in H. contradiction (repr_byte_head _ _ _ _ Hq H).
  - rewrite <- !app_assoc in H. apply (repr_byte_inj q) in H as [-> H]; [|exact Hq].
    apply IH in H as [-> ->]. now split.
Qed.

Lemma print_text_chars (b : bytes) (s : string) :
  exists q, is_quote q /\
    list_ascii_of_string (print_text b ++ s) =
    "b"%char :: ascii_of_byte q ::
      flat_map (repr_byte q) b ++ ascii_of_byte q :: "010"%char :: list_ascii_of_string s.
Proof.
  exists (if contains squote b && negb (contains dquote b) then dquote else squote).
  split; [apply quote_chosen|].
  unfold print_text, bytes_repr.
  rewrite !list_ascii_of_string_app, list_ascii_of_string_of_list_ascii.
  cbn [app list_ascii_of_string]. now rewrite <- !app_assoc.
Qed.

(** Two texts that [print] wrote, each followed by whatever: the same text
    only for the same value, followed by the same. *)
Lemma print_text_inj (b1 b2 : bytes) (s1 s2 : string) :
  (print_text b1 ++ s1 = print_text b2 ++ s2)%string -> b1 = b2 /\ s1 = s2.
Proof.
  intros H. apply (f_equal list_ascii_of_string) in H.
  destruct (print_text_chars b1 s1) as (q1 & Hq1 & E1).
  destruct (print_text_chars b2 s2) as (q2 & Hq2 & E2).
  rewrite E1, E2 in H. injection H as Hq H.
  assert (q1 = q2) as <-.
  { destruct Hq1 as [-> | ->], Hq2 as [-> | ->]; try reflexivity; discriminate. }
  apply (repr_bytes_inj q1 b1 Hq1) in H as [-> H].
  injection H as H. split; [reflexivity | now apply list_ascii_of_string_inj].
Qed.

Lemma text_of_inj (values1 : list bytes) :
  forall values2 : list bytes, text_of values1 = text_of values2 -> values1 = values2.
Proof.
  induction values1 as [|b1 values1 IH]; intros [|b2 values2] H; cbn [text_of] in H.
  - reflexivity.
  - apply (f_equal newlines) in H. rewrite newlines_app, print_text_newlines in H. discriminate.
  - apply (f_equal newlines) in H. rewrite newlines_app, print_text_newlines in H. discriminate.
  - apply print_text_inj in H as [-> H]. now rewrite (IH _ H).
Qed.

(** *** [sys.stdout] in a run *)

(** Whenever a run is looked at, [sys.stdout] holds the text of what was
    delivered, and nothing else. *)
Lemma run_stdout (o : OS) (fuel : nat) :
  sys_stdout (world_of (exec fuel run (boot o))) =
  text_of (deliveries (trace (world_of (exec fuel run (boot o))))).
Proof.
  destruct fuel as [|fuel]; [reflexivity|].
  destruct (sh o) as [exc|] eqn:Hsh.
  - now rewrite (exec_run_unspawned o fuel exc Hsh).
  - rewrite (exec_run_spawned o fuel Hsh).
    destruct (loop_turns fuel (spawned o)) as (tl & _ & Htr & Hout).
    rewrite Htr, Hout. reflexivity.
Qed.

(** *** Plain text *)

Lemma repr_byte_plain (c : byte) : plain c = true -> repr_byte squote c = [ascii_of_byte c].
Proof. destruct c; intros H; try discriminate H; reflexivity. Qed.

Lemma plain_not_squote (c : byte) : plain c = true -> Byte.eqb squote c = false.
Proof. destruct c; intros H; try discriminate H; reflexivity. Qed.

Lemma contains_plain (b : bytes) : forallb plain b = true -> contains squote (b ++ [sep]) = false.
Proof.
  induction b as [|c b IH]; [reflexivity|]. cbn [forallb]. intros H.
  apply andb_prop in H as [Hc Hb]. unfold contains in *. cbn [app existsb].
  now rewrite (plain_not_squote c Hc), IH.
Qed.

Lemma repr_bytes_plain (b : bytes) :
  forallb plain b = true -> flat_map (repr_byte squote) b = map ascii_of_byte b.
Proof.
  induction b as [|c b IH]; [reflexivity|]. cbn [forallb]. intros H.
  apply andb_prop in H as [Hc Hb]. cbn [flat_map map].
  now rewrite (repr_byte_plain c Hc), IH.
Qed.

(** A line of plain text, as [print] shows it. *)
Lemma print_text_plain_line (body : bytes) :
  forallb plain body = true ->
  print_text (body ++ [sep]) =
  ("b'" ++ string_of_list_byte body ++ "\n'" ++ String "010" EmptyString)%string.
Proof.
  intros Hplain. unfold print_text, bytes_repr.
  rewrite (contains_plain body Hplain). cbn [andb].
  rewrite flat_map_app, (repr_bytes_plain body Hplain).
  cbn [flat_map]. change (repr_byte squote sep) with ["\"%char; "n"%char].
  change ("b"%char :: ascii_of_byte squote :: (map ascii_of_byte body ++ ["\"%char; "n"%char] ++ []) ++ [ascii_of_byte squote])
    with (["b"%char; "'"%char] ++ (map ascii_of_byte body ++ ["\"%char; "n"%char] ++ []) ++ ["'"%char]).
  rewrite !string_of_list_ascii_app. cbn [string_of_list_ascii String.append app].
  unfold string_of_list_byte. now rewrite !string_app_assoc.
Qed.

(** The text of a value tells the value. *)
Lemma print_text_eq (b1 b2 : bytes) : print_text b1 = print_text b2 -> b1 = b2.
Proof.
  intros H. apply (print_text_inj b1 b2 EmptyString EmptyString).
  now rewrite !string_app_nil_r.
Qed.

End OutputFacts.

(** * The exceptions a run can meet *)

Module RaiseFacts.
Import Streams Script Runtime Observe StreamFacts RunFacts.

(** What [readuntil] leaves of the pipe was in it, and an exception it
    raises other than its own two was set by the transport. *)
Lemma readuntil_loop_pipe (pipe : list Feed) :
  forall (r : StreamReader) (offset : nat),
  incl (snd (readuntil_loop pipe r offset)) pipe /\
  match fst (fst (readuntil_loop pipe r offset)) with
  | Raise exc => In (SetException exc) pipe
  | _ => True
  end.
Proof.
  induction pipe as [|f pipe IH]; intros r offset;
    rewrite readuntil_loop_eq; destruct (scan r offset) as [isep|n|offset'];
    try (unfold take_chunk; destruct (_limit r <? N.of_nat isep)%N);
    try (split; [apply incl_refl | exact I]).
  - destruct (_eof r); split; try apply incl_refl; exact I.
  - destruct (_eof r); [split; [apply incl_refl | exact I]|].
    destruct f as [data| |exc]; cbn [feed fst snd].
    + destruct (IH (set_buffer r (_buffer r ++ data)) offset') as [Hincl Hexc].
      split; [now apply incl_tl|].
      destruct (fst (fst (readuntil_loop pipe _ offset'))); try exact I. now right.
    + destruct (IH (mkStreamReader (_buffer r) true (_exception r) (_limit r)) offset')
        as [Hincl Hexc].
      split; [now apply incl_tl|].
      destruct (fst (fst (readuntil_loop pipe _ offset'))); try exact I. now right.
    + split; [apply incl_tl, incl_refl | now left].
Qed.

Lemma readline_pipe (pipe : list Feed) (r : StreamReader) :
  _exception r = None ->
  incl (snd (readline pipe r)) pipe /\
  match fst (fst (readline pipe r)) with
  | Raises exc => exc = ValueError \/ In (SetException exc) pipe
  | _ => True
  end.
Proof.
  intros Hexc. unfold readline, readuntil. rewrite Hexc.
  destruct (readuntil_loop_pipe pipe r 0) as [Hincl Hraise].
  destruct (readuntil_loop pipe r 0) as [[[line|partial|k|exc|] r'] pipe'];
    cbn [fst snd] in *; split; try assumption; try exact I; [now left | now right].
Qed.

(** Under the loop: the reader is there and settled, its pipe part of the
    child's activity [feeds0].  An exception that ends the loop is
    [ValueError], or one the transport set, or one a write to [sys.stdout]
    met. *)
Lemma loop_raises (fuel : nat) :
  forall (w : World) (feeds feeds0 : list Feed) (r : StreamReader) (exc : Exception) (w' : World),
  child w = Some (mkChild feeds (Some r)) -> settled r -> incl feeds feeds0 ->
  exec fuel loop w = Uncaught exc w' ->
  exc = ValueError \/ In (SetException exc) feeds0 \/
  exists i, stdout_error (os w) i = Some exc.
Proof.
  assert (Hthrow : forall w feeds feeds0 r exc w1,
            child w = Some (mkChild feeds (Some r)) -> settled r -> incl feeds feeds0 ->
            await_readline w = Throw exc w1 ->
            exc = ValueError \/ In (SetException exc) feeds0 \/
            exists i, stdout_error (os w) i = Some exc).
  { intros w feeds feeds0 r exc w1 Hc [Hexc _] Hincl Hawait.
    unfold await_readline in Hawait. rewrite Hc in Hawait.
    destruct (readline_pipe feeds r Hexc) as [_ Hraise].
    destruct (readline feeds r) as [[[line|e|] r'] feeds']; try discriminate.
    injection Hawait as -> _. cbn [fst] in Hraise.
    destruct Hraise as [-> | Hin]; [now left | right; left; now apply Hincl]. }
  induction fuel as [| | |fuel IH] using three_step_ind;
    intros w feeds feeds0 r exc w' Hc Hr Hincl; expose_turn; try discriminate;
    destruct (await_readline w) as [line w1|e w1|w1] eqn:Hawait; try discriminate;
    try (intros [= -> _]; exact (Hthrow w feeds feeds0 r exc w1 Hc Hr Hincl Hawait));
    destruct (await_readline_writes w w1 line Hawait) as [Hos1 Hwr1];
    destruct (call_print_cases line w1) as [[_ ->] | (e & Herr & ->)]; try discriminate;
    try (intros [= -> _]; right; right; rewrite Hos1 in Herr; eauto).
  pose proof (await_readline_cases w) as H. rewrite Hawait in H.
  destruct H as (feeds1 & r1 & r' & feeds' & Hc1 & Hread & ->).
  rewrite Hc in Hc1. injection Hc1 as <- <-.
  intros Hrun.
  apply (IH _ feeds' feeds0 r') in Hrun; [exact Hrun | reflexivity | |].
  - pose proof (readline_settled feeds r Hr) as Hs. now rewrite Hread in Hs.
  - destruct Hr as [Hexc _]. destruct (readline_pipe feeds r Hexc) as [Hsub _].
    rewrite Hread in Hsub. cbn [snd] in Hsub.
    intros f Hf. apply Hincl, Hsub, Hf.
Qed.

(** *** A reader that holds an exception

    The transport's [set_exception] reaches a waiting [readline], which
    raises at once: whenever the reader is found holding an exception,
    that exception is what the call raised. *)
Lemma readuntil_loop_exception (pipe : list Feed) :
  forall (r : StreamReader) (offset : nat) (exc : Exception),
  _exception r = None ->
  _exception (snd (fst (readuntil_loop pipe r offset))) = Some exc ->
  fst (fst (readuntil_loop pipe r offset)) = Raise exc.
Proof.
  induction pipe as [|f pipe IH]; intros r offset exc Hexc;
    rewrite readuntil_loop_eq; destruct (scan r offset) as [isep|n|offset'];
    try (unfold take_chunk; destruct (_limit r <? N.of_nat isep)%N);
    cbn [fst snd set_buffer _exception]; try congruence.
  - destruct (_eof r); cbn [fst snd set_buffer _exception]; congruence.
  - destruct (_eof r); cbn [fst snd set_buffer _exception]; [congruence|].
    destruct f as [data| |e]; cbn [feed fst snd _exception].
    + apply IH. exact Hexc.
    + apply IH. exact Hexc.
    + congruence.
Qed.

Lemma readline_exception (pipe : list Feed) (r : StreamReader) (exc : Exception) :
  _exception r = None ->
  _exception (snd (fst (readline pipe r))) = Some exc ->
  fst (fst (readline pipe r)) = Raises exc.
Proof.
  intros Hexc. unfold readline, readuntil. rewrite Hexc.
  pose proof (readuntil_loop_exception pipe r 0 exc Hexc) as H.
  destruct (readuntil_loop pipe r 0) as [[[line|partial|k|e|] r'] pipe'];
    cbn [fst snd] in *; intros Hr'; try (specialize (H Hr'); discriminate).
  - destruct (startswith_sep (_buffer r') k); cbn [set_buffer _exception] in Hr';
      specialize (H Hr'); discriminate.
  - specialize (H Hr'). now injection H as ->.
Qed.

(** Under the loop, from a settled reader: a reader found holding an
    exception means that the loop has ended, with that exception. *)
Lemma loop_exception (fuel : nat) :
  forall (w : World) (r : StreamReader) (exc : Exception),
  world_settled w ->
  reader (world_of (exec fuel loop w)) = Some r -> _exception r = Some exc ->
  exec fuel loop w = Uncaught exc (world_of (exec fuel loop w)).
Proof.
  assert (Hquiet : forall w r exc, world_settled w -> reader w = Some r ->
            _exception r = Some exc -> False).
  { intros w r exc Hw Hr Hexc. destruct (Hw r Hr) as [Hnone _]. congruence. }
  assert (Hread : forall w line w1, world_settled w -> await_readline w = Done line w1 ->
            world_settled w1).
  { intros w line w1 Hw Hawait.
    pose proof (await_readline_cases w) as H. rewrite Hawait in H.
    destruct H as (feeds & r & r' & feeds' & Hc & Hrd & ->).
    intros r0 H0. unfold reader in H0. cbn in H0. injection H0 as <-.
    pose proof (readline_settled feeds r) as Hs. rewrite Hrd in Hs.
    apply Hs, Hw. unfold reader. now rewrite Hc. }
  assert (Hstop : forall w r exc, world_settled w ->
            reader (after (await_readline w)) = Some r -> _exception r = Some exc ->
            await_readline w = Throw exc (after (await_readline w))).
  { intros w r exc Hw. unfold await_readline.
    destruct (child w) as [[feeds [r0|]]|] eqn:Hc; cbn [after];
      try (intros Hr Hexc; unfold reader in Hr; rewrite Hc in Hr; discriminate).
    assert (Hnone : _exception r0 = None).
    { apply (Hw r0). unfold reader. now rewrite Hc. }
    pose proof (readline_exception feeds r0 exc Hnone) as Hraise.
    pose proof (readline_settled feeds r0 (Hw r0 ltac:(unfold reader; now rewrite Hc))) as Hs.
    destruct (readline feeds r0) as [[[line|e|] r'] feeds']; cbn [fst snd after] in *;
      unfold reader; cbn; intros [= <-] Hexc.
    - destruct Hs as [Hs _]. congruence.
    - specialize (Hraise Hexc). now injection Hraise as ->.
    - specialize (Hraise Hexc). discriminate. }
  assert (Hprint : forall w line, world_settled w -> world_settled (print line w)).
  { intros w line Hw r Hr. exact (Hw r Hr). }
  induction fuel as [| | |fuel IH] using three_step_ind; intros w r exc Hw; expose_turn;
    cbn [world_of]; try (intros Hr Hexc; contradiction (Hquiet w r exc Hw Hr Hexc));
    pose proof (Hstop w r exc Hw) as Hs;
    destruct (await_readline w) as [line w1|e w1|w1] eqn:Hawait; cbn [world_of after] in *;
    try (intros Hr Hexc; specialize (Hs Hr Hexc); congruence).
  - destruct (call_print_cases line w1) as [[_ ->] | (e & _ & ->)]; cbn [world_of];
      intros Hr Hexc.
    + contradiction (Hquiet _ r exc (Hprint w1 line (Hread w line w1 Hw Hawait)) Hr Hexc).
    + contradiction (Hquiet w1 r exc (Hread w line w1 Hw Hawait) Hr Hexc).
  - destruct (call_print_cases line w1) as [[_ ->] | (e & _ & ->)]; cbn [world_of].
    + apply IH, Hprint. exact (Hread w line w1 Hw Hawait).
    + intros Hr Hexc. contradiction (Hquiet w1 r exc (Hread w line w1 Hw Hawait) Hr Hexc).
Qed.

Lemma run_exception (o : OS) (fuel : nat) (r : StreamReader) (exc : Exception) :
  reader (world_of (exec fuel run (boot o))) = Some r -> _exception r = Some exc ->
  exec fuel run (boot o) = Uncaught exc (world_of (exec fuel run (boot o))).
Proof.
  destruct fuel as [|fuel]; [discriminate|].
  destruct (sh o) as [e|] eqn:Hsh.
  - rewrite (exec_run_unspawned o fuel e Hsh). discriminate.
  - rewrite (exec_run_spawned o fuel Hsh). apply loop_exception, spawned_settled.
Qed.

End RaiseFacts.

(** * The claims *)

Module Claims.
Import Streams Script Runtime Observe Hosts Console Endings.
Import StreamFacts OverlongFacts ReprFacts RunFacts EndingFacts AfterLinesFacts.
Import OutputFacts RaiseFacts.

(** C1, as amended.  A child writes the lines L1..Ln, each a newline-free
    body and its newline, each within the reader's 64 KiB limit, in whatever
    chunks the pipe cuts them, and exits cleanly; the supervisor's standard
    output takes the n prints.  Then the first n values the consumer
    receives are exactly L1..Ln, in the order written.  (What the consumer
    receives after them is not part of this statement.) *)
Theorem C1_lines_delivered_in_order
  (o : OS) (chunks lines : list bytes) (fuel : nat) :
  sh o = None ->
  lookup o command = Some (map FeedData chunks ++ [FeedEof]) ->
  concat chunks = concat lines ->
  Forall (line_within _DEFAULT_LIMIT) lines ->
  accepts o (length lines) ->
  3 * length lines + 1 <= fuel ->
  firstn (length lines) (deliveries (trace (world_of (exec fuel run (boot o))))) = lines.
Proof.
  intros Hsh Hlookup Hdata Hlines Hacc Hfuel.
  destruct (loop_delivers lines (spawned o) chunks (new_reader _DEFAULT_LIMIT) [FeedEof] [])
    as (w' & _ & _ & Hrun & _ & Htr & _); try reflexivity; try assumption.
  - unfold spawned. cbn [child]. now rewrite Hlookup.
  - cbn [_buffer new_reader app]. now rewrite app_nil_r.
  - destruct (exec_trace_mono (S (3 * length lines)) fuel run (boot o)) as [tl Htl]; [lia|].
    rewrite Htl, (exec_run_spawned o _ Hsh), Hrun. cbn [world_of].
    rewrite Htr, !deliveries_app, deliveries_turns. cbn [spawned trace deliveries app].
    rewrite firstn_exact. reflexivity.
Qed.

Lemma C1_lines_delivered_in_order_witness :
  firstn 2 (deliveries (trace (world_of (exec 7 run (boot hello_world_chunked))))) =
  hello_lines.
Proof.
  apply (C1_lines_delivered_in_order hello_world_chunked
           [B "hel"; B ("lo" ++ LF ++ "world 1"); B (" 2 3" ++ LF)] hello_lines 7).
  - reflexivity.
  - reflexivity.
  - reflexivity.
  - repeat constructor.
    + exists (B "hello"). repeat split; [cbn; intuition discriminate | vm_compute; discriminate].
    + exists (B "world 1 2 3"). repeat split; [cbn; intuition discriminate | vm_compute; discriminate].
  - intros i _. reflexivity.
  - cbn. lia.
Defined.

Lemma long_line_overlong :
  ~ In sep (repeat "a"%byte (N.to_nat 65537)) /\
  (_DEFAULT_LIMIT < N.of_nat (length (repeat "a"%byte (N.to_nat 65537))))%N.
Proof.
  split.
  - intros H. apply repeat_spec in H. discriminate.
  - rewrite repeat_length, N2Nat.id. reflexivity.
Qed.

Lemma long_winded_fails :
  exists w, exec 2 run (boot long_winded) = Uncaught ValueError w /\
            trace w = [Spawned command].
Proof.
  destruct long_line_overlong as [Hbody Hlong].
  destruct (readline_overlong _ [] [FeedEof] _ Hbody Hlong) as [r' Hr'].
  rewrite (exec_run_spawned long_winded 1 eq_refl), exec_loop_1.
  unfold await_readline.
  change (child (spawned long_winded))
    with (Some (mkChild [FeedData long_line; FeedEof] (Some (new_reader _DEFAULT_LIMIT)))).
  unfold long_line. rewrite Hr'. eexists. split; reflexivity.
Qed.

(** C1, as stated, fails.  On the specification's own example (hello, then
    world 1 2 3, then the output closes) the consumer is called a third time,
    with an empty value, which stays delivered at every later step; and
    [run] never comes to an end, so the supervisor is never [Exited].  And a
    line longer than the reader's limit is not delivered at all: [readline]
    raises. *)
Lemma C1_counterexample :
  deliveries (trace (world_of (exec 9 run (boot hello_world)))) = hello_lines ++ [[]] /\
  (forall fuel, 9 <= fuel ->
     exists more,
       deliveries (trace (world_of (exec fuel run (boot hello_world)))) =
       hello_lines ++ [] :: more) /\
  (forall fuel, state_of (exec fuel run (boot hello_world)) <> Exited) /\
  ~ delivers_then_exits hello_world hello_lines /\
  (exists w, exec 2 run (boot long_winded) = Uncaught ValueError w /\
             deliveries (trace w) = []) /\
  ~ delivers_then_exits long_winded [long_line].
Proof.
  split; [reflexivity|]. split; [|split; [|split; [|split]]].
  - intros fuel Hfuel.
    destruct (exec_trace_mono 9 fuel run (boot hello_world) Hfuel) as [tl ->].
    rewrite deliveries_app. exists (deliveries tl). reflexivity.
  - intros fuel H. destruct (exec fuel run (boot hello_world)) eqn:E; try discriminate.
    + exact (run_never_returns _ _ _ E).
    + cbn in H. destruct (child w); discriminate.
    + cbn in H. destruct (child w); discriminate.
  - intros (fuel & w & H & _). exact (run_never_returns _ _ _ H).
  - destruct long_winded_fails as (w & H & Htr). exists w. split; [exact H|].
    now rewrite Htr.
  - intros (fuel & w & H & _). exact (run_never_returns _ _ _ H).
Qed.

(** C2 fails on the code.  The engine closes its output at once;
    [readline] returns [b''], which [run] does not look at: after every turn
    the coroutine is still going, the stream closed, and the consumer has
    been handed one more empty value. *)
Theorem C2_end_of_stream_not_detected (k : nat) :
  exists w,
    exec (1 + 3 * (1 + k)) run (boot closing) = Busy w /\
    stream_closed w /\
    state_of (Busy w) = Running /\
    deliveries (trace w) = repeat [] (1 + k).
Proof.
  assert (H4 : exists w1, exec (1 + 3 * 1) run (boot closing) = Busy w1 /\
                          stream_closed w1 /\
                          trace w1 = [Spawned command; Read []; Printed []]).
  { eexists. split; [vm_compute; reflexivity|].
    split; [eexists; split; reflexivity | reflexivity]. }
  destruct H4 as (w1 & H1 & Hclosed & Htr1).
  assert (Hacc : accepting w1 k).
  { apply writable_accepting. rewrite (run_os closing _ w1 H1). intros i. reflexivity. }
  destruct (run_closed_turns closing 1 w1 k H1 Hclosed Hacc) as (w & Hrun & _ & Hc & Htr & _).
  exists w. split; [exact Hrun|]. split; [|split].
  - unfold stream_closed, reader in *. now rewrite Hc.
  - destruct Hclosed as (r & Hr & _). unfold reader in Hr. cbn. rewrite Hc.
    destruct (child w1); [reflexivity | discriminate].
  - now rewrite Htr, Htr1, deliveries_app, deliveries_empty_turns.
Qed.

(** C3, as stated, fails.  The engine closes its output at once and the
    supervisor's own output goes to a full device.  After the first read
    [run] is still going, the stream closed; the print that follows is
    refused, its [OSError] leaves [run], and that is where [run] stands at
    every later step: one read was made, and no other ever is. *)
Lemma C3_counterexample :
  exists w,
    exec 2 run (boot full_disk) = Busy w /\
    stream_closed w /\
    (forall fuel, 3 <= fuel -> exec fuel run (boot full_disk) = Uncaught (OSError ENOSPC) w) /\
    (forall fuel, 3 <= fuel -> busy (exec fuel run (boot full_disk)) = false) /\
    reads (trace w) = [[]].
Proof.
  eexists. split; [reflexivity|]. split; [eexists; split; reflexivity|].
  assert (Hend : forall fuel, 3 <= fuel ->
            exec fuel run (boot full_disk) = exec 3 run (boot full_disk)).
  { intros fuel Hfuel. now apply exec_final. }
  split; [|split; [|reflexivity]]; intros fuel Hfuel; now rewrite (Hend fuel Hfuel).
Qed.

(** C3, as amended.  In an execution where the child has exited, [run]
    stands, at some step, still going and with the stream closed.  When
    the supervisor's standard output takes every write, [run] is still going
    at every step, whatever the fuel: it never returns, never raises, never
    waits.  And the body runs again after every read: for every k there is a
    later step at which k more reads have been made, the stream closed as
    before. *)
Theorem C3_closed_stream_read_forever (o : OS) (n : nat) (w : World) :
  writable o ->
  exec n run (boot o) = Busy w ->
  stream_closed w ->
  (forall fuel, busy (exec fuel run (boot o)) = true) /\
  (forall k, exists fuel w',
     n <= fuel /\
     exec fuel run (boot o) = Busy w' /\
     stream_closed w' /\
     length (reads (trace w')) = length (reads (trace w)) + k).
Proof.
  intros Hwr Hrun Hclosed.
  destruct (run_closed_next_turn o n w Hwr Hrun Hclosed)
    as (i & w0 & Hle & Hhead & Hclosed0 & Hreads).
  split; [exact (run_closed_busy o i w0 Hwr Hhead Hclosed0)|].
  intros k.
  assert (Hacc : accepting w0 k).
  { apply writable_accepting. now rewrite (run_os o _ w0 Hhead). }
  destruct (run_closed_turns o i w0 k Hhead Hclosed0 Hacc) as (w' & Hlater & _ & Hc & Htr & _).
  exists (1 + 3 * (i + k)), w'. split; [lia|]. split; [exact Hlater|]. split.
  - unfold stream_closed, reader in *. now rewrite Hc.
  - now rewrite Htr, reads_app, length_app, reads_turns, repeat_length, Hreads.
Qed.

Lemma C3_closed_stream_read_forever_witness :
  busy (exec 100 run (boot hello_world)) = true /\
  exists fuel w',
    9 <= fuel /\ exec fuel run (boot hello_world) = Busy w' /\
    length (reads (trace w')) = 3 + 2.
Proof.
  destruct (C3_closed_stream_read_forever hello_world 9
              (world_of (exec 9 run (boot hello_world))))
    as [Hbusy Hturns].
  - intros i. reflexivity.
  - vm_compute. reflexivity.
  - eexists. split; vm_compute; reflexivity.
  - split; [exact (Hbusy 100)|].
    destruct (Hturns 2) as (fuel & w' & Hle & Hrun & _ & Hreads).
    exists fuel, w'. repeat split; assumption.
Defined.

(** C4, as stated, fails.  On a host with a shell and no [python] the spawn
    returns, the loop is entered, the consumer is handed a value, and no
    exception ever leaves [run]. *)
Lemma C4_counterexample :
  lookup no_python command = None /\
  exec 1 run (boot no_python) = Busy (spawned no_python) /\
  trace (world_of (exec 3 run (boot no_python))) =
    [Spawned command; Read []; Printed []] /\
  (forall fuel, busy (exec fuel run (boot no_python)) = true).
Proof.
  repeat split.
  assert (H1 : exists w1, exec (1 + 3 * 1) run (boot no_python) = Busy w1 /\ stream_closed w1).
  { eexists. split; [vm_compute; reflexivity | eexists; split; reflexivity]. }
  destruct H1 as (w1 & H1 & Hclosed).
  exact (run_closed_busy no_python 1 w1 (fun _ => eq_refl) H1 Hclosed).
Qed.

(** C4, as amended.  When the shell the command is launched through cannot
    itself be started, [create_subprocess_shell] raises, the exception leaves
    [run] at once and for good, nothing is tried again, and the loop is never
    entered: the world is as it was before [run], nothing read, nothing
    delivered. *)
Theorem C4_spawn_failure_is_final (o : OS) (exc : Exception) (fuel : nat) :
  sh o = Some exc ->
  1 <= fuel ->
  exec fuel run (boot o) = Uncaught exc (boot o) /\
  state_of (exec fuel run (boot o)) = Failed /\
  trace (world_of (exec fuel run (boot o))) = [].
Proof.
  intros Hsh Hfuel. destruct fuel as [|fuel]; [lia|].
  rewrite (exec_run_unspawned o fuel exc Hsh). repeat split.
Qed.

Lemma C4_spawn_failure_is_final_witness :
  exec 9 run (boot no_shell) = Uncaught FileNotFoundError (boot no_shell) /\
  state_of (exec 9 run (boot no_shell)) = Failed /\
  trace (world_of (exec 9 run (boot no_shell))) = [].
Proof.
  apply (C4_spawn_failure_is_final no_shell FileNotFoundError 9); [reflexivity | lia].
Defined.

(** C5.  The child never exits and writes nothing.  From its second step on
    [run] is parked in its first [readline], in the world the spawn left:
    it has not returned or raised, it takes no further step however much
    fuel it is given, nothing was read, and nothing was handed to the
    consumer. *)
Theorem C5_silent_child_parks (o : OS) (fuel : nat) :
  sh o = None ->
  lookup o command = Some [] ->
  2 <= fuel ->
  exec fuel run (boot o) = Parked (spawned o) /\
  reads (trace (spawned o)) = [] /\
  deliveries (trace (spawned o)) = [] /\
  sys_stdout (spawned o) = EmptyString.
Proof.
  intros Hsh Hlookup Hfuel. repeat split.
  destruct fuel as [|[|fuel]]; try lia.
  rewrite (exec_run_spawned o _ Hsh).
  cbn [exec]. cbn. unfold await_readline, spawned. cbn [child]. rewrite Hlookup.
  reflexivity.
Qed.

Lemma C5_silent_child_parks_witness :
  exec 1000 run (boot silent) = Parked (spawned silent) /\
  reads (trace (spawned silent)) = [] /\
  deliveries (trace (spawned silent)) = [] /\
  sys_stdout (spawned silent) = EmptyString.
Proof.
  apply (C5_silent_child_parks silent 1000); [reflexivity | reflexivity | lia].
Defined.

(** C6.  In every execution: once the transport has set an exception on
    the child's stream (the stream has become unreadable), [run] has ended
    with that very exception, uncaught: the supervisor is [Failed], it
    stands there at every later step and reads no more, and what had been
    read and delivered at any step is still there, unchanged, at the head
    of the final trace.  And on a host where the child's writes are
    followed by a read error [exc] of the transport, [run] does end, from
    some step on and for good: with [exc], unless [ValueError] came first
    (the child had written more than the reader's limit) or a write to the
    supervisor's standard output was refused first. *)
Theorem C6_broken_stream_fails :
  (forall (o : OS) (fuel : nat) (r : StreamReader) (exc : Exception),
     reader (world_of (exec fuel run (boot o))) = Some r ->
     _exception r = Some exc ->
     exists w,
       exec fuel run (boot o) = Uncaught exc w /\
       state_of (Uncaught exc w) = Failed /\
       (forall later, fuel <= later -> exec later run (boot o) = Uncaught exc w) /\
       (forall step, exists tl,
          trace w = trace (world_of (exec step run (boot o))) ++ tl)) /\
  (forall (o : OS) (chunks : list bytes) (exc : Exception) (rest : list Feed),
     sh o = None ->
     lookup o command = Some (map FeedData chunks ++ SetException exc :: rest) ->
     exists (n : nat) (e : Exception) (w : World),
       (e = exc \/
        (e = ValueError /\ (_DEFAULT_LIMIT < N.of_nat (length (concat chunks)))%N) \/
        (exists i, stdout_error o i = Some e)) /\
       (forall fuel, n <= fuel -> exec fuel run (boot o) = Uncaught e w) /\
       state_of (Uncaught e w) = Failed /\
       (forall step, exists tl,
          trace w = trace (world_of (exec step run (boot o))) ++ tl)).
Proof.
  assert (Hprefix : forall o n e w,
            (forall fuel, n <= fuel -> exec fuel run (boot o) = Uncaught e w) ->
            forall step, exists tl,
              trace w = trace (world_of (exec step run (boot o))) ++ tl).
  { intros o n e w Hend step.
    destruct (exec_trace_mono step (step + n) run (boot o)) as [tl Htl]; [lia|].
    rewrite (Hend (step + n)) in Htl by lia. now exists tl. }
  split.
  - intros o fuel r exc Hr Hexc.
    pose proof (run_exception o fuel r exc Hr Hexc) as Hrun.
    set (w := world_of (exec fuel run (boot o))) in *.
    assert (Hend : forall later, fuel <= later -> exec later run (boot o) = Uncaught exc w).
    { intros later Hle. rewrite <- Hrun. apply exec_final; [exact Hle | now rewrite Hrun]. }
    exists w. split; [exact Hrun|]. split; [reflexivity|]. split; [exact Hend|].
    exact (Hprefix o fuel exc w Hend).
  - intros o chunks exc rest Hsh Hlookup.
    destruct (loop_breaks (to_come (new_reader _DEFAULT_LIMIT) chunks) (spawned o) chunks
                (new_reader _DEFAULT_LIMIT) exc rest)
      as (e & w & He & Hrun); try reflexivity.
    { unfold spawned. cbn [child]. now rewrite Hlookup. }
    set (n := S (3 * to_come (new_reader _DEFAULT_LIMIT) chunks + 1)).
    assert (Hend : forall fuel, n <= fuel -> exec fuel run (boot o) = Uncaught e w).
    { intros [|fuel] Hfuel; [unfold n in Hfuel; lia|].
      rewrite (exec_run_spawned o fuel Hsh). apply Hrun. unfold n in Hfuel. lia. }
    exists n, e, w. split; [exact He|]. split; [exact Hend|]. split; [reflexivity|].
    exact (Hprefix o n e w Hend).
Qed.

Lemma C6_broken_stream_fails_witness :
  exists w,
    exec 5 run (boot breaking) = Uncaught BrokenPipeError w /\
    state_of (Uncaught BrokenPipeError w) = Failed /\
    (forall later, 5 <= later -> exec later run (boot breaking) = Uncaught BrokenPipeError w) /\
    (forall step, exists tl,
       trace w = trace (world_of (exec step run (boot breaking))) ++ tl).
Proof.
  destruct C6_broken_stream_fails as [Hbroken _].
  apply (Hbroken breaking 5 (mkStreamReader (B "tw") false (Some BrokenPipeError) _DEFAULT_LIMIT)
           BrokenPipeError); reflexivity.
Defined.

(** C7.  The coroutine is the spawn and then the loop, and a turn of the
    loop is one await, of [readline]; then one call of [print], on the value
    the await returned; then the loop again.  On any world, when the await
    returns a value, that value goes to [print] at once: when [print]
    returns, the loop is at its head again with that one value read and
    delivered, and when [print] raises, the loop is over.  A run whose shell
    starts is that loop on the world the spawn left, and a child's first
    line is read and delivered by its first turn.  So in every trace of
    [run] the calls after the spawn go in turns: a value is read, that value
    is printed, and only then is the next one read. *)
Theorem C7_one_await_then_print_per_turn :
  (exists k0,
     observe run = VisF (Create_subprocess_shell command PIPE) k0 /\
     forall proc : Process,
       exists k1,
         observe (k0 proc) = VisF (Readline proc) k1 /\
         forall output_str : bytes,
           exists k2,
             observe (k1 output_str) = VisF (Print output_str) k2 /\
             forall u : unit,
               exists k1',
                 observe (k2 u) = TauF (ITree.forever (body proc)) /\
                 observe (ITree.forever (body proc) : itree pipeE unit) =
                   VisF (Readline proc) k1') /\
  (forall (w w1 : World) (line : bytes),
     await_readline w = Done line w1 ->
     exec 1 loop w = Busy w1 /\
     trace w1 = trace w ++ [Read line] /\
     (stdout_error (os w) (writes (trace w)) = None ->
      exec 2 loop w = Busy (print line w1) /\
      exec 3 loop w = Busy (print line w1) /\
      trace (print line w1) = trace w ++ [Read line; Printed line]) /\
     (forall exc, stdout_error (os w) (writes (trace w)) = Some exc ->
      forall fuel, 2 <= fuel -> exec fuel loop w = Uncaught exc w1)) /\
  (forall (o : OS) (fuel : nat),
     sh o = None -> exec (S fuel) run (boot o) = exec fuel loop (spawned o)) /\
  (forall (o : OS) (chunks : list bytes) (line rest : bytes) (tail : list Feed),
     sh o = None ->
     lookup o command = Some (map FeedData chunks ++ tail) ->
     concat chunks = line ++ rest ->
     line_within _DEFAULT_LIMIT line ->
     accepts o 1 ->
     exists w,
       exec 4 run (boot o) = Busy w /\
       trace w = [Spawned command; Read line; Printed line]) /\
  (forall (o : OS) (fuel : nat),
     exists tl,
       Turns tl /\
       (trace (world_of (exec fuel run (boot o))) = [] \/
        trace (world_of (exec fuel run (boot o))) = Spawned command :: tl) /\
       (sh o = None -> 1 <= fuel ->
        trace (world_of (exec fuel run (boot o))) = Spawned command :: tl)).
Proof.
  split; [|split; [|split; [|split]]].
  - eexists. split; [cbn; reflexivity|].
    intros proc. eexists. split; [cbn; reflexivity|].
    intros output_str. eexists. split; [cbn; reflexivity|].
    intros u. eexists. split; [reflexivity | cbn; reflexivity].
  - intros w w1 line Hawait.
    destruct (await_readline_writes w w1 line Hawait) as [Hos1 Hwr1].
    pose proof (await_readline_cases w) as Hcases. rewrite Hawait in Hcases.
    destruct Hcases as (feeds & r & r' & feeds' & _ & _ & Hw1).
    split; [now rewrite exec_loop_1, Hawait|].
    split; [now rewrite Hw1|]. split.
    + intros Hok. rewrite exec_loop_2, (exec_loop_turn 0), Hawait.
      rewrite call_print_accepted by now rewrite Hos1, Hwr1.
      repeat split. rewrite Hw1. cbn [print trace]. now rewrite <- app_assoc.
    + intros exc Hno fuel Hfuel.
      assert (H2 : exec 2 loop w = Uncaught exc w1).
      { rewrite exec_loop_2, Hawait. unfold call_print. now rewrite Hos1, Hwr1, Hno. }
      rewrite <- H2. apply exec_final; [exact Hfuel | now rewrite H2].
  - intros o fuel Hsh. exact (exec_run_spawned o fuel Hsh).
  - intros o chunks line rest tail Hsh Hlookup Hdata Hline Hacc.
    destruct (run_after_lines o chunks [line] tail rest Hsh Hlookup)
      as (w1 & _ & _ & Hrun & _ & Htr & _); try assumption.
    + cbn [concat]. now rewrite app_nil_r.
    + now constructor.
    + exists w1. split; [exact (Hrun 0) | exact Htr].
  - intros o [|fuel].
    { exists []. split; [constructor|]. split; [now left | intros _ H; inversion H]. }
    destruct (sh o) as [exc|] eqn:Hsh.
    + rewrite (exec_run_unspawned o fuel exc Hsh).
      exists []. split; [constructor|]. split; [now left | discriminate].
    + rewrite (exec_run_spawned o fuel Hsh).
      destruct (loop_turns fuel (spawned o)) as (tl & Htl & Htr & _).
      exists tl. split; [exact Htl|]. split; [right; exact Htr | intros _ _; exact Htr].
Qed.

Lemma C7_one_await_then_print_per_turn_witness :
  exists w,
    exec 4 run (boot hello_world_chunked) = Busy w /\
    trace w = [Spawned command; Read (B ("hello" ++ LF)); Printed (B ("hello" ++ LF))].
Proof.
  destruct C7_one_await_then_print_per_turn as (_ & _ & _ & Hfirst & _).
  apply (Hfirst hello_world_chunked
           [B "hel"; B ("lo" ++ LF ++ "world 1"); B (" 2 3" ++ LF)]
           (B ("hello" ++ LF)) (B ("world 1 2 3" ++ LF)) [FeedEof]).
  - reflexivity.
  - reflexivity.
  - reflexivity.
  - exists (B "hello"). repeat split; [cbn; intuition discriminate | vm_compute; discriminate].
  - intros i _. reflexivity.
Defined.

(** C8, as stated, fails.  The engine closes its output at once, and the
    reader of the supervisor's output leaves after two lines.  After the
    first turn the stream is exhausted and one empty value is delivered; the
    second turn delivers another; the print of the third is refused, and
    [run] ends there: two empty deliveries, and never a third. *)
Lemma C8_counterexample :
  exists w w',
    exec 4 run (boot closing_headed) = Busy w /\
    stream_exhausted w /\
    deliveries (trace w) = [[]] /\
    (forall fuel, 9 <= fuel ->
       exec fuel run (boot closing_headed) = Uncaught BrokenPipeError w') /\
    deliveries (trace w') = [[]; []].
Proof.
  exists (world_of (exec 4 run (boot closing_headed))),
         (world_of (exec 9 run (boot closing_headed))).
  split; [reflexivity|].
  split; [eexists; repeat split|]. split; [reflexivity|].
  assert (Hend : forall fuel, 9 <= fuel ->
            exec fuel run (boot closing_headed) = exec 9 run (boot closing_headed)).
  { intros fuel Hfuel. now apply exec_final. }
  split; [|reflexivity]. intros fuel Hfuel. rewrite (Hend fuel Hfuel). reflexivity.
Qed.

(** C8, as amended.  A turn of the loop starts with the stream exhausted:
    closed, and nothing left in the buffer.  Then each of the k turns that
    follow, for every k for which the supervisor's standard output takes
    the writes, reads [b''] without touching reader or pipe, and hands that
    empty value to the consumer: k empty deliveries more, and as many lines
    [b''] on the supervisor's standard output. *)
Theorem C8_exhausted_stream_delivers_empty (o : OS) (i : nat) (w : World) (k : nat) :
  exec (1 + 3 * i) run (boot o) = Busy w ->
  stream_exhausted w ->
  accepting w k ->
  exists w',
    exec (1 + 3 * (i + k)) run (boot o) = Busy w' /\
    child w' = child w /\
    trace w' = trace w ++ concat (repeat (turn_of []) k) /\
    deliveries (trace w') = deliveries (trace w) ++ repeat [] k /\
    sys_stdout w' = (sys_stdout w ++ text_of (repeat [] k))%string.
Proof.
  intros Hrun (r & Hr & Heof & _) Hacc.
  destruct (run_closed_turns o i w k Hrun) as (w' & Hlater & _ & Hc & Htr & Hout).
  { exists r. now split. }
  { exact Hacc. }
  exists w'. repeat split; try assumption.
  now rewrite Htr, deliveries_app, deliveries_empty_turns.
Qed.

Lemma C8_exhausted_stream_delivers_empty_witness :
  exists w',
    exec 16 run (boot closing) = Busy w' /\
    deliveries (trace w') = repeat [] 5 /\
    sys_stdout w' = text_of (repeat [] 5).
Proof.
  destruct (C8_exhausted_stream_delivers_empty closing 1
              (world_of (exec 4 run (boot closing))) 4)
    as (w' & Hrun & _ & _ & Hdel & Hout).
  - vm_compute. reflexivity.
  - eexists. repeat split; vm_compute; reflexivity.
  - intros j _. reflexivity.
  - exists w'. split; [exact Hrun|]. split; [exact Hdel | exact Hout].
Defined.






(** X1, beyond the claims: all that a child's clean exit makes of the loop.  The
    child writes the lines L1..Ln and then a last piece without a newline,
    possibly empty, all within the reader's limit, and exits.  The consumer
    receives L1..Ln, then that last piece as it is, and then, turn after
    turn, empty values: k of them after k more turns, for every k for which
    the supervisor's standard output takes the writes. *)
Theorem X1_clean_exit_deliveries
  (o : OS) (chunks lines : list bytes) (last : bytes) (k : nat) :
  sh o = None ->
  lookup o command = Some (map FeedData chunks ++ [FeedEof]) ->
  concat chunks = concat lines ++ last ->
  Forall (line_within _DEFAULT_LIMIT) lines ->
  ~ In sep last ->
  (N.of_nat (length last) <= _DEFAULT_LIMIT)%N ->
  accepts o (length lines + (1 + k)) ->
  exists w,
    exec (1 + 3 * (length lines + (1 + k))) run (boot o) = Busy w /\
    stream_exhausted w /\
    deliveries (trace w) = lines ++ last :: repeat [] k.
Proof.
  intros Hsh Hlookup Hdata Hlines Hlast Hlim Hacc.
  destruct (run_after_lines o chunks lines [FeedEof] last Hsh Hlookup Hdata Hlines)
    as (w1 & buf1 & chunks1 & Hrun1 & Hos1 & Htr1 & _ & Hc1 & Hleft).
  { intros i Hi. apply Hacc. lia. }
  pose proof (readline_tail chunks1 (set_buffer (new_reader _DEFAULT_LIMIT) buf1) []
                eq_refl eq_refl) as Hread.
  cbn [set_buffer _buffer _limit new_reader] in Hread. rewrite Hleft in Hread.
  specialize (Hread Hlast Hlim).
  set (w2 := mkWorld (os w1) (Some (mkChild [] (Some (mkStreamReader [] true None _DEFAULT_LIMIT))))
                     (sys_stdout w1) (trace w1 ++ [Read last])).
  assert (Hacc2 : accepting w2 (S k)).
  { intros j Hj. unfold w2. cbn [os trace]. rewrite Hos1, writes_app, Htr1, writes_after_lines.
    cbn [writes]. apply Hacc. lia. }
  destruct (loop_exhausted k (print last w2) [] (mkStreamReader [] true None _DEFAULT_LIMIT))
    as (w & Hrun & _ & Hc & Htr & _); try reflexivity.
  { now apply accepting_print. }
  exists w. split; [|split].
  - replace (3 * (length lines + (1 + k))) with (3 * length lines + (3 + 3 * k)) by lia.
    rewrite Hrun1, exec_loop_turn. unfold await_readline.
    rewrite Hc1. cbn [set_buffer new_reader _eof _exception _limit]. rewrite Hread.
    unfold log, set_child. cbn [os child sys_stdout trace]. fold w2.
    rewrite (call_print_accepted _ _ (accepting_now _ _ Hacc2)).
    exact Hrun.
  - unfold stream_exhausted, reader. rewrite Hc. cbn. eexists. repeat split.
  - rewrite Htr. unfold w2. cbn [print trace]. rewrite Htr1.
    rewrite !deliveries_app, deliveries_empty_turns, deliveries_after_lines.
    cbn [deliveries app]. now rewrite app_nil_r, <- app_assoc.
Qed.

Lemma X1_clean_exit_deliveries_witness :
  exists w,
    exec 16 run (boot hello_world_chunked) = Busy w /\
    stream_exhausted w /\
    deliveries (trace w) = hello_lines ++ [] :: repeat [] 2.
Proof.
  apply (X1_clean_exit_deliveries hello_world_chunked
           [B "hel"; B ("lo" ++ LF ++ "world 1"); B (" 2 3" ++ LF)] hello_lines [] 2).
  - reflexivity.
  - reflexivity.
  - reflexivity.
  - repeat constructor.
    + exists (B "hello"). repeat split; [cbn; intuition discriminate | vm_compute; discriminate].
    + exists (B "world 1 2 3"). repeat split; [cbn; intuition discriminate | vm_compute; discriminate].
  - intros [].
  - vm_compute. discriminate.
  - intros i _. reflexivity.
Defined.

(** X2, beyond the claims: [run] has no normal end.  On every host, after any
    number of steps, the coroutine has not returned; an exception is its only
    way out of [while True]. *)
Theorem X2_run_has_no_return (o : OS) (fuel : nat) :
  returned (exec fuel run (boot o)) = false.
Proof.
  destruct (exec fuel run (boot o)) as [w| | |] eqn:E; try reflexivity.
  contradiction (run_never_returns o fuel w E).
Qed.

End Claims.

(** * Beyond the claims *)

Module Beyond.
Import Streams Script Runtime Observe Console Hosts Endings.
Import StreamFacts ReprFacts RunFacts EndingFacts AfterLinesFacts OutputFacts RaiseFacts.

(** X3: a line longer than the reader's limit ends the supervisor.  The
    child writes the lines L1..Ln, each within the 64 KiB limit, and then a
    line whose body is longer than the limit; the supervisor's standard
    output takes the n prints.  However the pipe cuts the writes, and
    whatever the child does afterwards, L1..Ln are delivered and printed,
    the next [readline] raises [ValueError], which leaves [run]: the
    overlong line and all that follows it are never delivered. *)
Theorem X3_overlong_line_ends_run
  (o : OS) (chunks lines : list bytes) (body rest : bytes) (tail : list Feed) (fuel : nat) :
  sh o = None ->
  lookup o command = Some (map FeedData chunks ++ tail) ->
  concat chunks = concat lines ++ body ++ sep :: rest ->
  Forall (line_within _DEFAULT_LIMIT) lines ->
  ~ In sep body ->
  (_DEFAULT_LIMIT < N.of_nat (length body))%N ->
  accepts o (length lines) ->
  3 * length lines + 2 <= fuel ->
  exists w,
    exec fuel run (boot o) = Uncaught ValueError w /\
    deliveries (trace w) = lines /\
    sys_stdout w = text_of lines.
Proof.
  intros Hsh Hlookup Hdata Hlines Hbody Hlong Hacc Hfuel.
  destruct (run_after_lines o chunks lines tail _ Hsh Hlookup Hdata Hlines Hacc)
    as (w1 & buf1 & chunks1 & Hrun & _ & Htr & Hout & Hc & Hleft).
  destruct (readline_overlong_line chunks1 (set_buffer (new_reader _DEFAULT_LIMIT) buf1)
              body rest tail eq_refl eq_refl Hbody Hleft Hlong) as (r' & pipe' & Hread).
  exists (set_child w1 (mkChild pipe' (Some r'))). split; [|split].
  - apply (run_ended o (1 + (3 * length lines + 1))); [|reflexivity|lia].
    rewrite Hrun, exec_loop_1. unfold await_readline. now rewrite Hc, Hread.
  - cbn [set_child trace]. rewrite Htr. apply deliveries_after_lines.
  - exact Hout.
Qed.

Lemma X3_overlong_line_ends_run_witness :
  exists w,
    exec 5 run (boot rambling) = Uncaught ValueError w /\
    deliveries (trace w) = [B ("ok" ++ LF)] /\
    sys_stdout w = text_of [B ("ok" ++ LF)].
Proof.
  apply (X3_overlong_line_ends_run rambling rambling_chunks [B ("ok" ++ LF)]
           (repeat "a"%byte (N.to_nat 65537)) (B ("bye" ++ LF)) [FeedEof] 5).
  - reflexivity.
  - reflexivity.
  - unfold rambling_chunks. cbn [concat]. now rewrite !app_nil_r.
  - repeat constructor.
    exists (B "ok"). repeat split; [cbn; intuition discriminate | vm_compute; discriminate].
  - intros H. apply repeat_spec in H. discriminate.
  - rewrite repeat_length, N2Nat.id. reflexivity.
  - intros i _. reflexivity.
  - cbn. lia.
Defined.

(** X4: a piece of a line is held back until its newline comes.  The child
    writes the lines L1..Ln and then a piece without a newline, all within
    the limit, and falls silent without closing its output; the
    supervisor's standard output takes the n prints.  L1..Ln are delivered
    and printed; the piece is not: it sits in the reader's buffer, and [run]
    waits in [readline] for good. *)
Theorem X4_unfinished_line_held_back
  (o : OS) (chunks lines : list bytes) (piece : bytes) (fuel : nat) :
  sh o = None ->
  lookup o command = Some (map FeedData chunks) ->
  concat chunks = concat lines ++ piece ->
  Forall (line_within _DEFAULT_LIMIT) lines ->
  ~ In sep piece ->
  (N.of_nat (length piece) <= _DEFAULT_LIMIT)%N ->
  accepts o (length lines) ->
  3 * length lines + 2 <= fuel ->
  exists w,
    exec fuel run (boot o) = Parked w /\
    reads (trace w) = lines /\
    deliveries (trace w) = lines /\
    sys_stdout w = text_of lines /\
    reader w = Some (mkStreamReader piece false None _DEFAULT_LIMIT).
Proof.
  intros Hsh Hlookup Hdata Hlines Hpiece Hlim Hacc Hfuel.
  rewrite <- (app_nil_r (map FeedData chunks)) in Hlookup.
  destruct (run_after_lines o chunks lines [] _ Hsh Hlookup Hdata Hlines Hacc)
    as (w1 & buf1 & chunks1 & Hrun & _ & Htr & Hout & Hc & Hleft).
  pose proof (readline_silent chunks1 (set_buffer (new_reader _DEFAULT_LIMIT) buf1)
                eq_refl eq_refl) as Hread.
  cbn [set_buffer _buffer _limit new_reader _eof _exception] in Hread.
  rewrite Hleft in Hread. specialize (Hread Hpiece Hlim).
  rewrite app_nil_r in Hc.
  eexists. split; [|repeat split].
  - apply (run_ended o (1 + (3 * length lines + 1))); [|reflexivity|lia].
    rewrite Hrun, exec_loop_1. unfold await_readline.
    rewrite Hc. cbn [set_buffer _buffer _limit new_reader _eof _exception]. rewrite Hread.
    reflexivity.
  - cbn [set_child trace]. rewrite Htr. cbn [reads]. apply reads_turns_of.
  - cbn [set_child trace]. rewrite Htr. apply deliveries_after_lines.
  - exact Hout.
  - reflexivity.
Qed.

Lemma X4_unfinished_line_held_back_witness :
  exists w,
    exec 5 run (boot stalling) = Parked w /\
    reads (trace w) = [B ("one" ++ LF)] /\
    deliveries (trace w) = [B ("one" ++ LF)] /\
    sys_stdout w = text_of [B ("one" ++ LF)] /\
    reader w = Some (mkStreamReader (B "tw") false None _DEFAULT_LIMIT).
Proof.
  apply (X4_unfinished_line_held_back stalling stalling_chunks [B ("one" ++ LF)] (B "tw") 5).
  - reflexivity.
  - reflexivity.
  - reflexivity.
  - repeat constructor.
    exists (B "one"). repeat split; [cbn; intuition discriminate | vm_compute; discriminate].
  - cbn. intuition discriminate.
  - vm_compute. discriminate.
  - intros i _. reflexivity.
  - cbn. lia.
Defined.

(** X5: when the pipe breaks, the unfinished line is lost.  The child
    writes the lines L1..Ln and then a piece without a newline, all within
    the limit, and the transport's read fails with an exception; the
    supervisor's standard output takes the n prints.  L1..Ln are delivered
    and printed, the piece never is, and the transport's exception, no
    other, leaves [run]. *)
Theorem X5_broken_pipe_loses_unfinished_line
  (o : OS) (chunks lines : list bytes) (piece : bytes)
  (exc : Exception) (rest : list Feed) (fuel : nat) :
  sh o = None ->
  lookup o command = Some (map FeedData chunks ++ SetException exc :: rest) ->
  concat chunks = concat lines ++ piece ->
  Forall (line_within _DEFAULT_LIMIT) lines ->
  ~ In sep piece ->
  (N.of_nat (length piece) <= _DEFAULT_LIMIT)%N ->
  accepts o (length lines) ->
  3 * length lines + 2 <= fuel ->
  exists w,
    exec fuel run (boot o) = Uncaught exc w /\
    deliveries (trace w) = lines /\
    sys_stdout w = text_of lines.
Proof.
  intros Hsh Hlookup Hdata Hlines Hpiece Hlim Hacc Hfuel.
  destruct (run_after_lines o chunks lines _ _ Hsh Hlookup Hdata Hlines Hacc)
    as (w1 & buf1 & chunks1 & Hrun & _ & Htr & Hout & Hc & Hleft).
  pose proof (readline_cut chunks1 (set_buffer (new_reader _DEFAULT_LIMIT) buf1) exc rest
                eq_refl eq_refl) as Hread.
  cbn [set_buffer _buffer _limit new_reader _eof _exception] in Hread.
  rewrite Hleft in Hread. specialize (Hread Hpiece Hlim).
  eexists. split; [|split].
  - apply (run_ended o (1 + (3 * length lines + 1))); [|reflexivity|lia].
    rewrite Hrun, exec_loop_1. unfold await_readline.
    rewrite Hc. cbn [set_buffer _buffer _limit new_reader _eof _exception]. rewrite Hread.
    reflexivity.
  - cbn [set_child trace]. rewrite Htr. apply deliveries_after_lines.
  - exact Hout.
Qed.

Lemma X5_broken_pipe_loses_unfinished_line_witness :
  exists w,
    exec 5 run (boot breaking) = Uncaught BrokenPipeError w /\
    deliveries (trace w) = [B ("one" ++ LF)] /\
    sys_stdout w = text_of [B ("one" ++ LF)].
Proof.
  apply (X5_broken_pipe_loses_unfinished_line breaking [B ("one" ++ LF ++ "tw")]
           [B ("one" ++ LF)] (B "tw") BrokenPipeError [] 5).
  - reflexivity.
  - reflexivity.
  - reflexivity.
  - repeat constructor.
    exists (B "one"). repeat split; [cbn; intuition discriminate | vm_compute; discriminate].
  - cbn. intuition discriminate.
  - vm_compute. discriminate.
  - intros i _. reflexivity.
  - cbn. lia.
Defined.

(** X6: one line of output per value.  On every host and at every step of
    a run, [sys.stdout] holds exactly as many newlines as values were
    delivered: the newline of a line read is printed as an escape, and an
    empty value still takes a line. *)
Theorem X6_one_output_line_per_delivery (o : OS) (fuel : nat) :
  newlines (sys_stdout (world_of (exec fuel run (boot o)))) =
  length (deliveries (trace (world_of (exec fuel run (boot o))))).
Proof. rewrite run_stdout. apply text_of_newlines. Qed.

(** X7: the output loses nothing.  Two runs, on whatever hosts and looked
    at whenever, that have written the same text to [sys.stdout] have
    delivered the same values: what was read can be told from what was
    printed, value by value. *)
Theorem X7_output_determines_deliveries (o1 o2 : OS) (fuel1 fuel2 : nat) :
  sys_stdout (world_of (exec fuel1 run (boot o1))) =
  sys_stdout (world_of (exec fuel2 run (boot o2))) ->
  deliveries (trace (world_of (exec fuel1 run (boot o1)))) =
  deliveries (trace (world_of (exec fuel2 run (boot o2)))).
Proof. rewrite !run_stdout. apply text_of_inj. Qed.

Lemma X7_output_determines_deliveries_witness :
  deliveries (trace (world_of (exec 7 run (boot hello_world_chunked)))) =
  deliveries (trace (world_of (exec 8 run (boot hello_world)))).
Proof. apply (X7_output_determines_deliveries hello_world_chunked hello_world 7 8). reflexivity. Defined.

(** X8: what a line of plain text looks like on the output.  For a line
    whose body is printable ASCII with no single quote and no backslash,
    [print] writes [b'], the body as it is, the two characters backslash
    and n, the closing quote, and a newline. *)
Theorem X8_plain_line_printed_verbatim (body : bytes) :
  forallb plain body = true ->
  print_text (body ++ [sep]) =
  ("b'" ++ string_of_list_byte body ++ "\n'" ++ String "010" EmptyString)%string.
Proof.
  intros Hplain. unfold print_text, bytes_repr.
  rewrite (contains_plain body Hplain). cbn [andb].
  rewrite flat_map_app, (repr_bytes_plain body Hplain).
  cbn [flat_map]. change (repr_byte squote sep) with ["\"%char; "n"%char].
  change ("b"%char :: ascii_of_byte squote :: (map ascii_of_byte body ++ ["\"%char; "n"%char] ++ []) ++ [ascii_of_byte squote])
    with (["b"%char; "'"%char] ++ (map ascii_of_byte body ++ ["\"%char; "n"%char] ++ []) ++ ["'"%char]).
  rewrite !string_of_list_ascii_app. cbn [string_of_list_ascii String.append app].
  unfold string_of_list_byte. now rewrite !string_app_assoc.
Qed.

Lemma X8_plain_line_printed_verbatim_witness :
  print_text (B "world 1 2 3" ++ [sep]) =
  ("b'" ++ string_of_list_byte (B "world 1 2 3") ++ "\n'" ++ String "010" EmptyString)%string.
Proof. apply (X8_plain_line_printed_verbatim (B "world 1 2 3")). reflexivity. Defined.

(** X10: the exceptions that can end the supervisor.  Whatever leaves
    [run] is the error that starting the shell met, or [ValueError] (a line
    over the limit), or an exception that the transport of the child's pipe
    set, or the error a write to the supervisor's standard output met; in
    the last three cases the child was spawned. *)
Theorem X10_exceptions_leaving_run (o : OS) (fuel : nat) (exc : Exception) (w : World) :
  exec fuel run (boot o) = Uncaught exc w ->
  sh o = Some exc \/
  (sh o = None /\
   (exc = ValueError \/
    (exists feeds, lookup o command = Some feeds /\ In (SetException exc) feeds) \/
    (exists i, stdout_error o i = Some exc))).
Proof.
  destruct fuel as [|fuel]; [discriminate|].
  destruct (sh o) as [e|] eqn:Hsh.
  - rewrite (exec_run_unspawned o fuel e Hsh). intros [= -> _]. now left.
  - rewrite (exec_run_spawned o fuel Hsh). intros Hrun. right. split; [reflexivity|].
    destruct (loop_raises fuel (spawned o) _ _ (new_reader _DEFAULT_LIMIT) exc w
                eq_refl (spawned_settled o _ eq_refl) (incl_refl _) Hrun)
      as [-> | [Hin | Hout]]; [now left | right; left | right; right; exact Hout].
    destruct (lookup o command) as [feeds|]; [now exists feeds|].
    destruct Hin as [Hin | []]. discriminate.
Qed.

Lemma X10_exceptions_leaving_run_witness :
  sh headed = Some BrokenPipeError \/
  (sh headed = None /\
   (BrokenPipeError = ValueError \/
    (exists feeds, lookup headed command = Some feeds /\
                   In (SetException BrokenPipeError) feeds) \/
    (exists i, stdout_error headed i = Some BrokenPipeError))).
Proof.
  apply (X10_exceptions_leaving_run headed 6 BrokenPipeError
           (world_of (exec 6 run (boot headed)))).
  reflexivity.
Defined.

(** X11: a refused print ends the supervisor, and the line is lost.  The
    child writes the lines L1..Ln and one more line, each within the limit;
    the supervisor's standard output takes n prints and refuses the next
    with an error.  L1..Ln are delivered and printed; the line after them is
    read, its print raises, and that error leaves [run]: the line is never
    delivered, nor anything after it. *)
Theorem X11_refused_print_ends_run
  (o : OS) (chunks lines : list bytes) (line rest : bytes) (tail : list Feed)
  (exc : Exception) (fuel : nat) :
  sh o = None ->
  lookup o command = Some (map FeedData chunks ++ tail) ->
  concat chunks = concat lines ++ line ++ rest ->
  Forall (line_within _DEFAULT_LIMIT) lines ->
  line_within _DEFAULT_LIMIT line ->
  accepts o (length lines) ->
  stdout_error o (length lines) = Some exc ->
  3 * length lines + 3 <= fuel ->
  exists w,
    exec fuel run (boot o) = Uncaught exc w /\
    reads (trace w) = lines ++ [line] /\
    deliveries (trace w) = lines /\
    sys_stdout w = text_of lines.
Proof.
  intros Hsh Hlookup Hdata Hlines (body & -> & Hbody & Hlim) Hacc Hno Hfuel.
  destruct (run_after_lines o chunks lines tail _ Hsh Hlookup Hdata Hlines Hacc)
    as (w1 & buf1 & chunks1 & Hrun & Hos & Htr & Hout & Hc & Hleft).
  rewrite <- app_assoc in Hleft. cbn [app] in Hleft.
  destruct (readline_line chunks1 (set_buffer (new_reader _DEFAULT_LIMIT) buf1) body rest tail
              eq_refl eq_refl Hbody Hleft Hlim) as (buf2 & chunks2 & Hread & _).
  eexists. split; [|split; [|split]].
  - apply (run_ended o (1 + (3 * length lines + 2))); [|reflexivity|lia].
    rewrite Hrun, exec_loop_2. unfold await_readline. rewrite Hc, Hread.
    unfold call_print, log, set_child. cbn [os trace].
    rewrite Hos, writes_app, Htr, writes_after_lines. cbn [writes].
    rewrite Nat.add_0_r, Hno. reflexivity.
  - cbn [trace]. rewrite ?Htr, reads_app. cbn [reads]. now rewrite reads_turns_of.
  - cbn [trace]. rewrite ?Htr, deliveries_app. cbn [deliveries].
    now rewrite deliveries_turns, app_nil_r.
  - cbn [sys_stdout]. exact Hout.
Qed.

Lemma X11_refused_print_ends_run_witness :
  exists w,
    exec 6 run (boot headed) = Uncaught BrokenPipeError w /\
    reads (trace w) = [B ("hello" ++ LF)] ++ [B ("world 1 2 3" ++ LF)] /\
    deliveries (trace w) = [B ("hello" ++ LF)] /\
    sys_stdout w = text_of [B ("hello" ++ LF)].
Proof.
  apply (X11_refused_print_ends_run headed
           [B ("hello" ++ LF); B ("world 1 2 3" ++ LF)] [B ("hello" ++ LF)]
           (B ("world 1 2 3" ++ LF)) [] [FeedEof] BrokenPipeError 6).
  - reflexivity.
  - reflexivity.
  - reflexivity.
  - repeat constructor.
    exists (B "hello"). repeat split; [cbn; intuition discriminate | vm_compute; discriminate].
  - exists (B "world 1 2 3"). repeat split; [cbn; intuition discriminate | vm_compute; discriminate].
  - intros i Hi. cbn in Hi. destruct i; [reflexivity | lia].
  - reflexivity.
  - cbn. lia.
Defined.

End Beyond.
